(** * PodSet operator: the reconciler of [controllers/podset_controller.go]

    A shallow embedding of the PodSet reconciler and the properties of its
    replica management, batch execution, status calculation and status
    commit.

    - Go's [int] is modelled as a 64-bit two's complement integer carried by
      [Z] ([wrap64]), [int32] likewise ([wrap32]).
    - A method that talks to the API server, reads the wall clock, logs or
      may panic is a computation in the monad [M]: it takes the outside world
      and gives back a value or a panic, the world after it and the events it
      emitted, in order.
    - The goroutines of a batch are run under an explicit schedule, any list of
      goroutine indices; [wg.Wait] lets the remaining ones finish.
    - A slice of pod pointers has its elements and, behind them, the rest of
      its backing array up to its capacity ([PodSlice]). *)

From Stdlib Require Import ZArith List String Bool Lia Arith Permutation.
Import ListNotations.
Local Open Scope string_scope.
Local Open Scope list_scope.
Local Open Scope Z_scope.

Set Implicit Arguments.

(** ** Machine integers *)

Definition wrap (bits : Z) (z : Z) : Z :=
  (z + 2 ^ (bits - 1)) mod 2 ^ bits - 2 ^ (bits - 1).

Definition wrap64 : Z -> Z := wrap 64.
Definition wrap32 : Z -> Z := wrap 32.

Definition MaxInt32 : Z := 2 ^ 31 - 1.
Definition MinInt32 : Z := - 2 ^ 31.

(** [len(s)] of a slice, an [int]. *)
Definition len {A : Type} (s : list A) : Z := Z.of_nat (List.length s).

(** ** Errors

    [apierrors.IsNotFound] looks at the reason of an API status error;
    [fmt.Errorf] with the verb [%v] builds a plain error that carries only the
    text of the one it was given. *)

Inductive StatusReason : Type :=
| StatusReasonNotFound
| StatusReasonAlreadyExists
| StatusReasonConflict
| StatusReasonForbidden
| StatusReasonInternalError.

Inductive CauseType : Type :=
| NamespaceTerminatingCause
| OtherCause.

Inductive error : Type :=
| StatusError (reason : StatusReason) (causes : list CauseType) (message : string)
| errorString (message : string).

Definition ErrorText (err : error) : string :=
  match err with
  | StatusError _ _ m => m
  | errorString m => m
  end.

Definition IsNotFound (err : error) : bool :=
  match err with
  | StatusError StatusReasonNotFound _ _ => true
  | _ => false
  end.

Definition CauseType_eqb (a b : CauseType) : bool :=
  match a, b with
  | NamespaceTerminatingCause, NamespaceTerminatingCause => true
  | OtherCause, OtherCause => true
  | _, _ => false
  end.

Definition HasStatusCause (err : error) (name : CauseType) : bool :=
  match err with
  | StatusError _ causes _ => existsb (CauseType_eqb name) causes
  | errorString _ => false
  end.

Definition Errorf (prefix : string) (err : error) : error :=
  errorString (prefix ++ ErrorText err)%string.

(** ** API objects

    Only the fields the reconciler reads or writes. *)

Definition Time : Type := Z.
Definition Labels : Type := list (string * string).
Definition Selector : Type := list (string * string).

Record OwnerReference : Type := {
  APIVersion : string;
  Kind : string;
  OwnerName : string;
  UID : string;
  Controller : bool;
  BlockOwnerDeletion : bool
}.

Inductive PodPhase : Type :=
| PodPending
| PodRunning
| PodSucceeded
| PodFailed
| PodUnknown.

Record Pod : Type := {
  Namespace : string;
  Name : string;
  PodLabels : Labels;
  OwnerReferences : list OwnerReference;
  Phase : PodPhase;
  PodDeletionTimestamp : option Time;
  (** the Ready condition: [Some t] when it is true since [t] *)
  ReadySince : option Time
}.

Record PodTemplateSpec : Type := {
  TemplateLabels : Labels
}.

Record LabelSelector : Type := {
  MatchLabels : Labels
}.

Record PodSetSpec : Type := {
  (** [Replicas *int32]: [None] is the nil pointer *)
  SpecReplicas : option Z;
  SpecSelector : LabelSelector;
  Template : PodTemplateSpec
}.

Record PodSetStatus : Type := {
  Replicas : Z;
  ReadyReplicas : Z;
  AvailableReplicas : Z;
  ObservedGeneration : Z
}.

Record PodSet : Type := {
  psNamespace : string;
  psName : string;
  psUID : string;
  Generation : Z;
  DeletionTimestamp : option Time;
  Spec : PodSetSpec;
  Status : PodSetStatus
}.

Record NamespacedName : Type := {
  nnNamespace : string;
  nnName : string
}.

Record Request : Type := {
  reqNamespacedName : NamespacedName
}.

(** [reconcile.Result] *)
Record Result : Type := {
  Requeue : bool
}.

Definition emptyPod : Pod :=
  {| Namespace := ""; Name := ""; PodLabels := []; OwnerReferences := [];
     Phase := PodPending; PodDeletionTimestamp := None; ReadySince := None |}.

(** A slice [[]*corev1.Pod]: [items] are the elements within its length,
    [spare] is what the backing array holds from the length up to the
    capacity, where [None] is a nil pointer. Re-slicing can reach into
    [spare]. Where a list is expected, a slice stands for its elements, so
    that [len filteredPods] is [len(filteredPods)]. *)
Record PodSlice : Type := {
  items :> list Pod;
  spare : list (option Pod)
}.

(** [cap(s)] *)
Definition cap (s : PodSlice) : Z := len (items s) + len (spare s).

(** The backing array of a slice from its first element on, as pointers. *)
Definition backing (s : PodSlice) : list (option Pod) :=
  map Some (items s) ++ spare s.

Definition SetNamespace (pod : Pod) (ns : string) : Pod :=
  {| Namespace := ns; Name := Name pod; PodLabels := PodLabels pod;
     OwnerReferences := OwnerReferences pod; Phase := Phase pod;
     PodDeletionTimestamp := PodDeletionTimestamp pod;
     ReadySince := ReadySince pod |}.

Definition SetName (pod : Pod) (name : string) : Pod :=
  {| Namespace := Namespace pod; Name := name; PodLabels := PodLabels pod;
     OwnerReferences := OwnerReferences pod; Phase := Phase pod;
     PodDeletionTimestamp := PodDeletionTimestamp pod;
     ReadySince := ReadySince pod |}.

Definition SetLabels (pod : Pod) (l : Labels) : Pod :=
  {| Namespace := Namespace pod; Name := Name pod; PodLabels := l;
     OwnerReferences := OwnerReferences pod; Phase := Phase pod;
     PodDeletionTimestamp := PodDeletionTimestamp pod;
     ReadySince := ReadySince pod |}.

(** [podSet.Status = newStatus] *)
Definition SetStatus (podSet : PodSet) (st : PodSetStatus) : PodSet :=
  {| psNamespace := psNamespace podSet; psName := psName podSet;
     psUID := psUID podSet; Generation := Generation podSet;
     DeletionTimestamp := DeletionTimestamp podSet; Spec := Spec podSet;
     Status := st |}.

(** [podSet.DeepCopy()]: a value of the model shares nothing with another. *)
Definition DeepCopy (podSet : PodSet) : PodSet := podSet.

(** [metav1.NewControllerRef(podSet, pixiuv1alpha1.GroupVersionKind)] *)
Definition NewControllerRef (podSet : PodSet) : OwnerReference :=
  {| APIVersion := "pixiu.pixiu.io/v1alpha1"; Kind := "PodSet";
     OwnerName := psName podSet; UID := psUID podSet;
     Controller := true; BlockOwnerDeletion := true |}.

(** ** Helpers of the package that live outside this file *)

(** Modelled from the spec: [FilterActivePods] and its test are in another
    file of the package. An instance is active iff its phase is neither
    succeeded nor failed; a terminating instance stays active. The spec says
    nothing of the capacity of the slice that is returned: what its backing
    array holds beyond the active pods is given by [room], a parameter. *)
Definition IsPodActive (pod : Pod) : bool :=
  match Phase pod with
  | PodSucceeded | PodFailed => false
  | _ => true
  end.

Definition FilterActivePods (room : list Pod -> list (option Pod))
    (pods : list Pod) : PodSlice :=
  {| items := filter IsPodActive pods; spare := room pods |}.

(** Modelled from the spec: [IsPodReady] is in another file of the package.
    It reads the readiness signal of the instance. *)
Definition IsPodReady (pod : Pod) : bool :=
  match ReadySince pod with
  | Some _ => true
  | None => false
  end.

(** Modelled from the spec: [IsPodAvailable] is in another file of the
    package. Available requires ready and ([minReadySeconds] = 0 or
    ready-since <= now - minReadySeconds). *)
Definition IsPodAvailable (pod : Pod) (minReadySeconds : Z) (now : Time) : bool :=
  match ReadySince pod with
  | Some since => (minReadySeconds =? 0) || (since <=? now - minReadySeconds)
  | None => false
  end.

(** Modelled from the spec: [validateControllerRef] is in another file of the
    package. An owner reference must name a non-empty controller kind, name
    and UID. *)
Definition validateControllerRef (controllerRef : OwnerReference) : option error :=
  if (Kind controllerRef =? "")%string then
    Some (errorString "controllerRef has empty Kind")
  else if (OwnerName controllerRef =? "")%string then
    Some (errorString "controllerRef has empty Name")
  else if (UID controllerRef =? "")%string then
    Some (errorString "controllerRef has empty UID")
  else None.

(** ** The outside world

    [client.Client] is an interface: each call takes the world and gives the
    reply and the world after the call. A call that fills the object it is
    given ([Get], [List], [Create], [Status().Update]) replies with that
    object. The wall clock is part of the world. *)

Class Client (W : Type) : Type := {
  Get : NamespacedName -> W -> (PodSet + error) * W;
  List : string -> Selector -> W -> (list Pod + error) * W;
  Create : Pod -> W -> (Pod + error) * W;
  Delete : Pod -> W -> option error * W;
  StatusUpdate : PodSet -> W -> (PodSet + error) * W;
  Now : W -> Time * W
}.

(** What a pass leaves behind: the calls to the API server with their
    replies, the events given to the recorder and the log lines. *)
Inductive Event : Type :=
| EvGet (key : NamespacedName) (reply : PodSet + error)
| EvList (ns : string) (sel : Selector) (reply : list Pod + error)
| EvCreate (pod : Pod) (reply : option error)
| EvDelete (ns name : string) (reply : option error)
| EvStatusUpdate (podSet : PodSet) (reply : option error)
| EvRecord (pod : Pod) (eventtype reason message : string)
| EvLogInfo (msg : string) (need amount : Z)
| EvLogError (msg : string) (err : error)
| EvLogV (msg : string).

Inductive Res (A : Type) : Type :=
| Ret (a : A)
| Panic (msg : string).

Arguments Panic {A} msg.

Record Out (W A : Type) : Type := {
  res : Res A;
  world : W;
  events : list Event
}.

Definition M (W A : Type) : Type := W -> Out W A.

Definition ret {W A : Type} (a : A) : M W A :=
  fun w => {| res := Ret a; world := w; events := [] |}.

Definition panic {W A : Type} (msg : string) : M W A :=
  fun w => {| res := Panic msg; world := w; events := [] |}.

Definition bind {W A B : Type} (m : M W A) (f : A -> M W B) : M W B :=
  fun w =>
    let o := m w in
    match res o with
    | Ret a =>
        let o' := f a (world o) in
        {| res := res o'; world := world o'; events := events o ++ events o' |}
    | Panic msg =>
        {| res := Panic msg; world := world o; events := events o |}
    end.

Definition emit {W : Type} (ev : Event) : M W unit :=
  fun w => {| res := Ret tt; world := w; events := [ev] |}.

Declare Scope go_scope.
Delimit Scope go_scope with go.
Notation "x <- m ;; k" := (bind m (fun x => k))
  (at level 61, m at next level, right associativity) : go_scope.
Notation "m ;;; k" := (bind m (fun _ => k))
  (at level 61, right associativity) : go_scope.
Local Open Scope go_scope.

(** ** The reconciler *)

Section Reconciler.

Context {W : Type} {client : Client W}.

(** [types.BurstReplicas], a constant of package [pkg/types]. *)
Variable BurstReplicas : Z.

(** [r.parsePodSelector] and [GetPodFromTemplate] are in other files of the
    package; the reconciler only looks at whether they fail. *)
Variable parsePodSelector : PodSet -> Selector + error.
(** What [FilterActivePods] leaves in the backing array of its result. *)
Variable room : list Pod -> list (option Pod).
Variable GetPodFromTemplate :
  PodTemplateSpec -> PodSet -> OwnerReference -> Pod + error.

Abbreviation Go := (M W).

(** *** Calls to the API server and to the clock *)

Definition r_Get (key : NamespacedName) : Go (PodSet + error) :=
  fun w =>
    let (reply, w') := Get key w in
    {| res := Ret reply; world := w'; events := [EvGet key reply] |}.

Definition r_List (ns : string) (sel : Selector) : Go (list Pod + error) :=
  fun w =>
    let (reply, w') := List ns sel w in
    {| res := Ret reply; world := w'; events := [EvList ns sel reply] |}.

Definition replyError {A : Type} (reply : A + error) : option error :=
  match reply with
  | inl _ => None
  | inr err => Some err
  end.

Definition r_Create (pod : Pod) : Go (Pod + error) :=
  fun w =>
    let (reply, w') := Create pod w in
    {| res := Ret reply; world := w';
       events := [EvCreate pod (replyError reply)] |}.

Definition r_Delete (pod : Pod) : Go (option error) :=
  fun w =>
    let (reply, w') := Delete pod w in
    {| res := Ret reply; world := w';
       events := [EvDelete (Namespace pod) (Name pod) reply] |}.

Definition r_Status_Update (podSet : PodSet) : Go (PodSet + error) :=
  fun w =>
    let (reply, w') := StatusUpdate podSet w in
    {| res := Ret reply; world := w';
       events := [EvStatusUpdate podSet (replyError reply)] |}.

Definition metav1_Now : Go Time :=
  fun w =>
    let (t, w') := Now w in
    {| res := Ret t; world := w'; events := [] |}.

(** *** createPod and deletePod *)

Definition createPod (namespace : string) (template : PodTemplateSpec)
    (object : PodSet) (controllerRef : OwnerReference) : Go (option error) :=
  match validateControllerRef controllerRef with
  | Some err => ret (Some err)
  | None =>
      match GetPodFromTemplate template object controllerRef with
      | inr err => ret (Some err)
      | inl pod =>
          let pod :=
            if len (PodLabels pod) =? 0
            then SetLabels pod (MatchLabels (SpecSelector (Spec object)))
            else pod in
          let pod := SetNamespace pod namespace in
          reply <- r_Create pod ;;
          match reply with
          | inr err =>
              (if HasStatusCause err NamespaceTerminatingCause
               then emit (EvRecord pod "Warning" "create pod fail" (ErrorText err))
               else ret tt) ;;;
              ret (Some err)
          | inl pod =>
              emit (EvRecord pod "Normal" "create pod successful"
                      "create pod successful -1") ;;;
              ret None
          end
      end
  end.

Definition deletePod (namespace : string) (name : string) : Go (option error) :=
  let pod := emptyPod in
  let pod := SetNamespace pod namespace in
  let pod := SetName pod name in
  reply <- r_Delete pod ;;
  match reply with
  | Some err =>
      if IsNotFound err then
        emit (EvLogV "pod has already been deleted.") ;;;
        ret (Some err)
      else ret (Some (Errorf "failed to delete pod: " err))
  | None => ret None
  end.

(** *** Goroutines, the error channel and the wait group

    A goroutine of a batch runs its body, one call to [fn] or to [deletePod],
    and then, when the body hands it an error to report, sends that error on
    [errCh]; the deferred [wg.Done] then lets it exit. The channel is buffered
    for the whole batch, so a send never blocks. Any step of any goroutine can
    come between two steps of another: a schedule is a list of goroutine
    indices, each naming the goroutine that moves next (an index of a goroutine
    that has exited, or of none, moves nothing). [wg.Wait] returns when every
    goroutine has exited: whatever the schedule left undone is run after it. A
    panic in a goroutine ends the program. *)

Inductive Goroutine : Type :=
| Spawned (body : Go (option error))
| Sending (err : error)
| Exited.

Record Batch : Type := {
  goroutines : list Goroutine;
  errCh : list error;
  bworld : W;
  bevents : list Event;
  crashed : option string
}.

Fixpoint update {A : Type} (i : nat) (x : A) (l : list A) : list A :=
  match l, i with
  | [], _ => []
  | _ :: t, O => x :: t
  | h :: t, S j => h :: update j x t
  end.

Definition step (b : Batch) (i : nat) : Batch :=
  match crashed b with
  | Some _ => b
  | None =>
      match nth_error (goroutines b) i with
      | Some (Spawned body) =>
          let o := body (bworld b) in
          match res o with
          | Ret (Some err) =>
              {| goroutines := update i (Sending err) (goroutines b);
                 errCh := errCh b; bworld := world o;
                 bevents := bevents b ++ events o; crashed := None |}
          | Ret None =>
              {| goroutines := update i Exited (goroutines b);
                 errCh := errCh b; bworld := world o;
                 bevents := bevents b ++ events o; crashed := None |}
          | Panic msg =>
              {| goroutines := goroutines b;
                 errCh := errCh b; bworld := world o;
                 bevents := bevents b ++ events o; crashed := Some msg |}
          end
      | Some (Sending err) =>
          {| goroutines := update i Exited (goroutines b);
             errCh := errCh b ++ [err]; bworld := bworld b;
             bevents := bevents b; crashed := None |}
      | Some Exited => b
      | None => b
      end
  end.

Definition run (sched : list nat) (b : Batch) : Batch :=
  fold_left step sched b.

Definition spawn (bodies : list (Go (option error))) (w : W) : Batch :=
  {| goroutines := map Spawned bodies; errCh := []; bworld := w;
     bevents := []; crashed := None |}.

(** [go func() {...}()] for each body, then [wg.Wait()]; the value is what
    the channel holds then, oldest first. *)
Definition goAndWait (sched : list nat) (bodies : list (Go (option error)))
  : Go (list error) :=
  fun w =>
    let n := List.length bodies in
    let b := run (sched ++ seq 0 n ++ seq 0 n) (spawn bodies w) in
    {| res := match crashed b with
              | Some msg => Panic msg
              | None => Ret (errCh b)
              end;
       world := bworld b; events := bevents b |}.

(** *** createPodsInBatch *)

Definition createPodsInBatch (sched : list nat) (count : Z)
    (initialBatchSize : Z) (fn : Go (option error)) : Go (Z * option error) :=
  if count <? 0 then panic "makechan: size out of range"
  else
    (* if err := fn(); err != nil { errCh <- err } *)
    goAndWait sched (repeat fn (Z.to_nat count)) ;;;
    ret (0, None).

(** *** getPodsToDelete

    [filteredPods[:diff]] panics when [diff] is negative or beyond the
    capacity of the slice; up to the capacity it gives the first [diff]
    pointers of the backing array, those beyond the length included. *)
Definition getPodsToDelete (filteredPods : PodSlice) (diff : Z)
  : option (list (option Pod)) :=
  if (0 <=? diff) && (diff <=? cap filteredPods)
  then Some (firstn (Z.to_nat diff) (backing filteredPods))
  else None.

Definition orPanic {A : Type} (msg : string) (o : option A) : Go A :=
  match o with
  | Some a => ret a
  | None => panic msg
  end.

(** *** manageReplicas *)

(** The body of a delete goroutine: what it sends on [errCh], if anything.
    [targetPod.Namespace] on a nil pointer panics. *)
Definition deleteBody (targetPod : option Pod) : Go (option error) :=
  match targetPod with
  | None => panic "nil pointer dereference"
  | Some targetPod =>
      err <- deletePod (Namespace targetPod) (Name targetPod) ;;
      match err with
      | Some err => if negb (IsNotFound err) then ret (Some err) else ret None
      | None => ret None
      end
  end.

Definition clamp (diff : Z) : Z :=
  if diff >? BurstReplicas then BurstReplicas else diff.

(** The branch [diff < 0] once [diff] is negated and clamped. *)
Definition scaleUp (sched : list nat) (podSet : PodSet) (replicas diff : Z)
  : Go (option error) :=
  emit (EvLogInfo "Too few replicas" replicas diff) ;;;
  r <- createPodsInBatch sched diff 1
         (createPod (psNamespace podSet) (Template (Spec podSet)) podSet
            (NewControllerRef podSet)) ;;
  ret (snd r).

(** The branch [diff > 0] once [diff] is clamped. The [select] with a
    [default] case takes the oldest error of the channel if there is one. *)
Definition scaleDown (sched : list nat) (filteredPods : PodSlice)
    (replicas diff : Z) : Go (option error) :=
  emit (EvLogInfo "Too many replicas" replicas diff) ;;;
  podToDelete <- orPanic "slice bounds out of range"
                   (getPodsToDelete filteredPods diff) ;;
  errCh <- goAndWait sched (map deleteBody podToDelete) ;;
  match errCh with
  | err :: _ => ret (Some err)
  | [] => ret None
  end.

Definition manageReplicas (sched : list nat) (filteredPods : PodSlice)
    (podSet : PodSet) : Go (option error) :=
  replicas <- orPanic "nil pointer dereference" (SpecReplicas (Spec podSet)) ;;
  let diff := wrap64 (len filteredPods - replicas) in
  if diff <? 0 then
    let diff := wrap64 (diff * -1) in
    let diff := clamp diff in
    scaleUp sched podSet replicas diff
  else if diff >? 0 then
    let diff := clamp diff in
    scaleDown sched filteredPods replicas diff
  else ret None.

(** *** calculateStatus *)

Fixpoint countReplicas (filteredPods : list Pod)
    (readyReplicasCount availableReplicasCount : Z) : Go (Z * Z) :=
  match filteredPods with
  | [] => ret (readyReplicasCount, availableReplicasCount)
  | pod :: rest =>
      if IsPodReady pod then
        let readyReplicasCount := wrap64 (readyReplicasCount + 1) in
        now <- metav1_Now ;;
        if IsPodAvailable pod 0 now
        then countReplicas rest readyReplicasCount
               (wrap64 (availableReplicasCount + 1))
        else countReplicas rest readyReplicasCount availableReplicasCount
      else countReplicas rest readyReplicasCount availableReplicasCount
  end.

Definition calculateStatus (podSet : PodSet) (filteredPods : PodSlice)
    (replicasErr : option error) : Go PodSetStatus :=
  let newStatus := Status podSet in
  counts <- countReplicas filteredPods 0 0 ;;
  ret {| Replicas := wrap32 (len filteredPods);
         ReadyReplicas := wrap32 (fst counts);
         AvailableReplicas := wrap32 (snd counts);
         ObservedGeneration := ObservedGeneration newStatus |}.

(** *** updatePodSetStatus

    The method writes through the pointer it is given: [updated] is the
    object behind [podSet] when the method returns, [returned] and [failure]
    are the two values it returns. *)

Record Commit : Type := {
  updated : PodSet;
  returned : option PodSet;
  failure : option error
}.

Definition sameStatus (podSet : PodSet) (newStatus : PodSetStatus) : bool :=
  (Replicas (Status podSet) =? Replicas newStatus) &&
  (ReadyReplicas (Status podSet) =? ReadyReplicas newStatus) &&
  (AvailableReplicas (Status podSet) =? AvailableReplicas newStatus) &&
  (Generation podSet =? ObservedGeneration newStatus).

Definition SetObservedGeneration (st : PodSetStatus) (g : Z) : PodSetStatus :=
  {| Replicas := Replicas st; ReadyReplicas := ReadyReplicas st;
     AvailableReplicas := AvailableReplicas st; ObservedGeneration := g |}.

Definition updatePodSetStatus (podSet : PodSet) (newStatus : PodSetStatus)
  : Go Commit :=
  if sameStatus podSet newStatus then
    ret {| updated := podSet; returned := Some podSet; failure := None |}
  else
    let newStatus := SetObservedGeneration newStatus (Generation podSet) in
    let podSet := SetStatus podSet newStatus in
    reply <- r_Status_Update podSet ;;
    match reply with
    | inr err =>
        ret {| updated := podSet; returned := None; failure := Some err |}
    | inl podSet =>
        ret {| updated := podSet; returned := Some podSet; failure := None |}
    end.

(** *** Reconcile *)

Definition Reconcile (sched : list nat) (req : Request)
  : Go (Result * option error) :=
  emit (EvLogV "reconciling pod set operator") ;;;
  got <- r_Get (reqNamespacedName req) ;;
  match got with
  | inr err =>
      if IsNotFound err then ret ({| Requeue := false |}, None)
      else
        emit (EvLogError "error requesting pod set operator" err) ;;;
        ret ({| Requeue := true |}, None)
  | inl podSet =>
      match parsePodSelector podSet with
      | inr _ => ret ({| Requeue := true |}, None)
      | inl labelSelector =>
          listed <- r_List (nnNamespace (reqNamespacedName req)) labelSelector ;;
          match listed with
          | inr err =>
              emit (EvLogError "error list pods" err) ;;;
              ret ({| Requeue := true |}, None)
          | inl allPods =>
              let filteredPods := FilterActivePods room allPods in
              replicasErr <-
                match DeletionTimestamp podSet with
                | None => manageReplicas sched filteredPods podSet
                | Some _ => ret None
                end ;;
              let podSet := DeepCopy podSet in
              newStatus <- calculateStatus podSet filteredPods replicasErr ;;
              c <- updatePodSetStatus podSet newStatus ;;
              match failure c with
              | Some _ => ret ({| Requeue := true |}, None)
              | None => ret ({| Requeue := false |}, None)
              end
          end
      end
  end.

End Reconciler.

Arguments Goroutine W : clear implicits.
Arguments Batch W : clear implicits.
Arguments Spawned {W} body.
Arguments Sending {W} err.
Arguments Exited {W}.

(** ** An API server in memory

    A small cluster to run the reconciler on: pods and pod sets are kept in
    lists, a create needs quota, some pods refuse to go, and status writes can
    be made to conflict. *)

Module Fake.

Record Cluster : Type := {
  podsets : list PodSet;
  pods : list Pod;
  createQuota : nat;
  stuck : list string;
  conflicts : bool;
  unreachable : bool;
  clock : Time
}.

Definition notFound : error :=
  StatusError StatusReasonNotFound [] "not found".
Definition forbidden : error :=
  StatusError StatusReasonForbidden [] "exceeded quota".
Definition conflict : error :=
  StatusError StatusReasonConflict [] "the object has been modified".
Definition internal : error :=
  StatusError StatusReasonInternalError [] "internal error".

Definition isPodSet (key : NamespacedName) (ps : PodSet) : bool :=
  (psNamespace ps =? nnNamespace key)%string && (psName ps =? nnName key)%string.

Definition isPod (ns name : string) (p : Pod) : bool :=
  (Namespace p =? ns)%string && (Name p =? name)%string.

Definition hasLabel (l : Labels) (kv : string * string) : bool :=
  existsb (fun x => (fst x =? fst kv)%string && (snd x =? snd kv)%string) l.

Definition matches (ns : string) (sel : Selector) (p : Pod) : bool :=
  (Namespace p =? ns)%string && forallb (hasLabel (PodLabels p)) sel.

Definition apiGet (key : NamespacedName) (c : Cluster) : (PodSet + error) * Cluster :=
  if unreachable c then (inr internal, c)
  else match find (isPodSet key) (podsets c) with
       | Some ps => (inl ps, c)
       | None => (inr notFound, c)
       end.

Definition apiList (ns : string) (sel : Selector) (c : Cluster)
  : (list Pod + error) * Cluster :=
  (inl (filter (matches ns sel) (pods c)), c).

Definition apiCreate (p : Pod) (c : Cluster) : (Pod + error) * Cluster :=
  match createQuota c with
  | O => (inr forbidden, c)
  | S q =>
      (inl p,
       {| podsets := podsets c; pods := pods c ++ [p]; createQuota := q;
          stuck := stuck c; conflicts := conflicts c;
          unreachable := unreachable c; clock := clock c |})
  end.

Definition apiDelete (p : Pod) (c : Cluster) : option error * Cluster :=
  if existsb (String.eqb (Name p)) (stuck c) then (Some internal, c)
  else if existsb (isPod (Namespace p) (Name p)) (pods c) then
    (None,
     {| podsets := podsets c;
        pods := filter (fun q => negb (isPod (Namespace p) (Name p) q)) (pods c);
        createQuota := createQuota c; stuck := stuck c;
        conflicts := conflicts c; unreachable := unreachable c;
        clock := clock c |})
  else (Some notFound, c).

Definition apiStatusUpdate (ps : PodSet) (c : Cluster) : (PodSet + error) * Cluster :=
  if conflicts c then (inr conflict, c)
  else
    (inl ps,
     {| podsets :=
          map (fun q =>
                 if isPodSet {| nnNamespace := psNamespace ps; nnName := psName ps |} q
                 then SetStatus q (Status ps) else q) (podsets c);
        pods := pods c; createQuota := createQuota c; stuck := stuck c;
        conflicts := conflicts c; unreachable := unreachable c;
        clock := clock c |}).

Definition apiNow (c : Cluster) : Time * Cluster :=
  (clock c,
   {| podsets := podsets c; pods := pods c; createQuota := createQuota c;
      stuck := stuck c; conflicts := conflicts c;
      unreachable := unreachable c; clock := clock c + 1 |}).

#[global] Instance client : Client Cluster := {
  Get := apiGet;
  List := apiList;
  Create := apiCreate;
  Delete := apiDelete;
  StatusUpdate := apiStatusUpdate;
  Now := apiNow
}.

Definition parsePodSelector (ps : PodSet) : Selector + error :=
  match MatchLabels (SpecSelector (Spec ps)) with
  | [] => inr (errorString "empty selector")
  | l => inl l
  end.

Definition GetPodFromTemplate (template : PodTemplateSpec) (parent : PodSet)
    (controllerRef : OwnerReference) : Pod + error :=
  inl {| Namespace := ""; Name := (psName parent ++ "-pod")%string;
         PodLabels := TemplateLabels template;
         OwnerReferences := [controllerRef]; Phase := PodPending;
         PodDeletionTimestamp := None; ReadySince := None |}.

Definition web : Labels := [("app", "web")].

Definition pod (name : string) (ready : option Time) : Pod :=
  {| Namespace := "default"; Name := name; PodLabels := web;
     OwnerReferences := []; Phase := PodRunning;
     PodDeletionTimestamp := None; ReadySince := ready |}.

Definition podSet (replicas : Z) (deleted : option Time) (generation : Z)
    (st : PodSetStatus) : PodSet :=
  {| psNamespace := "default"; psName := "web"; psUID := "uid-1";
     Generation := generation; DeletionTimestamp := deleted;
     Spec := {| SpecReplicas := Some replicas;
                SpecSelector := {| MatchLabels := web |};
                Template := {| TemplateLabels := web |} |};
     Status := st |}.

Definition noStatus : PodSetStatus :=
  {| Replicas := 0; ReadyReplicas := 0; AvailableReplicas := 0;
     ObservedGeneration := 0 |}.

Definition cluster (sets : list PodSet) (ps : list Pod) (quota : nat)
    (stuckPods : list string) : Cluster :=
  {| podsets := sets; pods := ps; createQuota := quota; stuck := stuckPods;
     conflicts := false; unreachable := false; clock := 100 |}.

Definition request : Request :=
  {| reqNamespacedName := {| nnNamespace := "default"; nnName := "web" |} |}.

(** A slice with one free slot behind its elements, as [append] leaves
    them, and the [FilterActivePods] that returns such slices. *)
Definition room (pods : list Pod) : list (option Pod) := [None].

Definition slice (pods : list Pod) : PodSlice :=
  {| items := pods; spare := room pods |}.

End Fake.


(** ** What a pass did, read off its events *)

Definition isCreate (ev : Event) : bool :=
  match ev with
  | EvCreate _ _ => true
  | _ => false
  end.

Definition isDelete (ev : Event) : bool :=
  match ev with
  | EvDelete _ _ _ => true
  | _ => false
  end.

Definition isStatusWrite (ev : Event) : bool :=
  match ev with
  | EvStatusUpdate _ _ => true
  | _ => false
  end.

Definition isStoreCall (ev : Event) : bool :=
  match ev with
  | EvGet _ _ | EvList _ _ _ | EvCreate _ _ | EvDelete _ _ _
  | EvStatusUpdate _ _ => true
  | _ => false
  end.

(** A delete that failed with anything but not-found. *)
Definition isHardDeleteFailure (ev : Event) : bool :=
  match ev with
  | EvDelete _ _ (Some err) => negb (IsNotFound err)
  | _ => false
  end.

(** A create that failed. *)
Definition isCreateFailure (ev : Event) : bool :=
  match ev with
  | EvCreate _ (Some _) => true
  | _ => false
  end.

Definition count (f : Event -> bool) (evs : list Event) : Z :=
  len (filter f evs).

(** The condition under which the specification has the commit skipped: the
    three counts of the new status are the stored ones and the generation of
    the workload is the stored observed generation. *)
Definition storedStatusCurrent (podSet : PodSet) (newStatus : PodSetStatus)
  : Prop :=
  Replicas newStatus = Replicas (Status podSet) /\
  ReadyReplicas newStatus = ReadyReplicas (Status podSet) /\
  AvailableReplicas newStatus = AvailableReplicas (Status podSet) /\
  Generation podSet = ObservedGeneration (Status podSet).

Definition sameCounts (a b : PodSetStatus) : Prop :=
  Replicas a = Replicas b /\
  ReadyReplicas a = ReadyReplicas b /\
  AvailableReplicas a = AvailableReplicas b.

(** A store whose status update hands back the object with the status it
    was asked to persist and with the generation the object had. *)
Definition StoreEchoes {W : Type} (client : Client W) : Prop :=
  forall (podSet podSet' : PodSet) (w w' : W),
    StatusUpdate podSet w = (inl podSet', w') ->
    Status podSet' = Status podSet /\ Generation podSet' = Generation podSet.

(** ** Notions to reason about a batch *)

(** How many steps a goroutine still has to take. *)
Definition rank {W : Type} (g : Goroutine W) : nat :=
  match g with
  | Spawned _ => 2
  | Sending _ => 1
  | Exited => 0
  end.

Definition rankAt {W : Type} (b : Batch W) (j : nat) : nat :=
  match nth_error (goroutines b) j with
  | Some g => rank g
  | None => 0
  end.

(** A body that never panics. *)
Definition calm {W : Type} (body : M W (option error)) : Prop :=
  forall w, exists r, res (body w) = Ret r.

(** A body that never panics and hands an error to its goroutine exactly
    when it emitted an event that [bad] marks. *)
Definition reports {W : Type} (bad : Event -> bool) (body : M W (option error))
  : Prop :=
  forall w, exists r,
    res (body w) = Ret r /\ (r = None <-> existsb bad (events (body w)) = false).

Definition bodiesSatisfy {W : Type} (P : M W (option error) -> Prop)
    (gs : list (Goroutine W)) : Prop :=
  Forall (fun g => match g with
                   | Spawned body => P body
                   | _ => True
                   end) gs.

(** No goroutine has panicked and every body still to run satisfies [P]. *)
Definition healthy {W : Type} (P : M W (option error) -> Prop) (b : Batch W)
  : Prop :=
  crashed b = None /\ bodiesSatisfy P (goroutines b).

(** Some goroutine holds an error it has not sent yet. *)
Definition sending {W : Type} (b : Batch W) : Prop :=
  exists j err, nth_error (goroutines b) j = Some (Sending err).

(** The channel is empty and no error waits to be sent exactly when no
    event so far is marked by [bad]. *)
Definition tidy {W : Type} (bad : Event -> bool) (b : Batch W) : Prop :=
  (errCh b = [] /\ ~ sending b) <-> existsb bad (bevents b) = false.

(** ** Notions to reason about what a batch did *)

(** What an observer [f] of events sees of a body, on every run: the body
    never panics and the observations of its events are [l]. *)
Definition emits {W L : Type} (f : Event -> list L)
    (body : M W (option error)) (l : list L) : Prop :=
  forall w, (exists r, res (body w) = Ret r) /\
            flat_map f (events (body w)) = l.

(** The observations still to come: those of the bodies not yet run, the
    goroutine at position [j] running the body made from [xs] at [j]. *)
Fixpoint pending {W X L : Type} (lab : X -> list L)
    (gs : list (Goroutine W)) (xs : list X) : list L :=
  match gs, xs with
  | g :: gs', x :: xs' =>
      match g with
      | Spawned _ => lab x
      | _ => []
      end ++ pending lab gs' xs'
  | _, _ => []
  end.

Definition bound {W X : Type} (mk : X -> M W (option error))
    (gs : list (Goroutine W)) (xs : list X) : Prop :=
  Forall2 (fun g x => match g with
                      | Spawned body => body = mk x
                      | _ => True
                      end) gs xs.

(** The bodies still to run are those made from [xs], and what [f] has seen
    so far together with what is still to come is what the bodies show. *)
Definition traced {W X L : Type} (f : Event -> list L)
    (mk : X -> M W (option error)) (lab : X -> list L) (xs : list X)
    (b : Batch W) : Prop :=
  bound mk (goroutines b) xs /\
  Permutation (flat_map f (bevents b) ++ pending lab (goroutines b) xs)
              (flat_map lab xs).

(** The namespace and name a delete call was made for. *)
Definition deleteTarget (ev : Event) : list (string * string) :=
  match ev with
  | EvDelete ns name _ => [(ns, name)]
  | _ => []
  end.

(** The pod a create call was made for. *)
Definition createdPod (ev : Event) : list Pod :=
  match ev with
  | EvCreate pod _ => [pod]
  | _ => []
  end.

(** The events given to the recorder: type and reason. *)
Definition recorded (ev : Event) : list (string * string) :=
  match ev with
  | EvRecord _ eventtype reason _ => [(eventtype, reason)]
  | _ => []
  end.

(** An error is accounted for by the events when one of them is related to
    it by [rel]. *)
Definition justified (rel : Event -> error -> Prop) (evs : list Event)
    (err : error) : Prop :=
  exists ev, In ev evs /\ rel ev err.

(** [err] is what [deletePod] makes of a delete that the store refused
    with something else than not-found. *)
Definition deleteFailure (ev : Event) (err : error) : Prop :=
  exists ns name err0,
    ev = EvDelete ns name (Some err0) /\
    IsNotFound err0 = false /\
    err = Errorf "failed to delete pod: " err0.

(** A body whose error, when it hands one to its goroutine, is accounted
    for by the events of that run. *)
Definition explains {W : Type} (rel : Event -> error -> Prop)
    (body : M W (option error)) : Prop :=
  forall w err,
    res (body w) = Ret (Some err) -> justified rel (events (body w)) err.

(** A body that emits at most [k] events marked by [mark], whether it
    returns or panics. *)
Definition atMost {W : Type} (mark : Event -> bool) (k : Z)
    (body : M W (option error)) : Prop :=
  forall w, count mark (events (body w)) <= k.

Definition isSpawned {W : Type} (g : Goroutine W) : bool :=
  match g with
  | Spawned _ => true
  | _ => false
  end.

(** The number of goroutines that have not run their body yet. *)
Definition spawned {W : Type} (gs : list (Goroutine W)) : Z :=
  len (filter isSpawned gs).

(** The marked events so far stay within [k] for each of the [n] bodies;
    as long as no goroutine has panicked, those still to run are provided
    for. *)
Definition capped {W : Type} (mark : Event -> bool) (k n : Z) (b : Batch W)
  : Prop :=
  count mark (bevents b) <= k * n /\
  (crashed b = None ->
   count mark (bevents b) + k * spawned (goroutines b) <= k * n).

(** Every error on the channel or about to be sent is accounted for. *)
Definition accounted {W : Type} (rel : Event -> error -> Prop) (b : Batch W)
  : Prop :=
  Forall (justified rel (bevents b)) (errCh b) /\
  forall j err, nth_error (goroutines b) j = Some (Sending err) ->
                justified rel (bevents b) err.

(** The pod [createPod] sends to the store, made from the pod of the
    template. *)
Definition stamped (namespace : string) (object : PodSet) (pod : Pod) : Pod :=
  SetNamespace
    (if len (PodLabels pod) =? 0
     then SetLabels pod (MatchLabels (SpecSelector (Spec object)))
     else pod)
    namespace.

(** The pods one run of [createPod] asks the store to create: the stamped
    pod of the template when the owner reference is valid and the template
    gives a pod, none otherwise. *)
Definition toCreate
    (GetPodFromTemplate :
       PodTemplateSpec -> PodSet -> OwnerReference -> Pod + error)
    (namespace : string) (template : PodTemplateSpec) (object : PodSet)
    (controllerRef : OwnerReference) : list Pod :=
  match validateControllerRef controllerRef with
  | Some _ => []
  | None =>
      match GetPodFromTemplate template object controllerRef with
      | inl pod => [stamped namespace object pod]
      | inr _ => []
      end
  end.

(** ** Properties *)

Unset Implicit Arguments.

(** *** Machine integers *)

Lemma wrap64_small (z : Z) :
  - 2 ^ 63 <= z < 2 ^ 63 -> wrap64 z = z.
Proof.
  intros Hz. unfold wrap64, wrap.
  change (2 ^ (64 - 1)) with 9223372036854775808.
  change (2 ^ 64) with 18446744073709551616.
  change (2 ^ 63) with 9223372036854775808 in Hz.
  rewrite Z.mod_small; lia.
Qed.

Lemma wrap32_small (z : Z) :
  MinInt32 <= z <= MaxInt32 -> wrap32 z = z.
Proof.
  unfold MinInt32, MaxInt32, wrap32, wrap.
  change (2 ^ (32 - 1)) with 2147483648.
  change (2 ^ 32) with 4294967296.
  change (2 ^ 31) with 2147483648.
  intros Hz. rewrite Z.mod_small; lia.
Qed.

Lemma len_nonneg {A : Type} (l : list A) : 0 <= len l.
Proof. unfold len. lia. Qed.

Lemma len_cons {A : Type} (a : A) (l : list A) : len (a :: l) = len l + 1.
Proof. unfold len. cbn [List.length]. lia. Qed.

Lemma len_filter_le {A : Type} (f : A -> bool) (l : list A) :
  len (filter f l) <= len l.
Proof.
  induction l as [|a l IH]; cbn [filter].
  - lia.
  - destruct (f a); rewrite ?len_cons; lia.
Qed.

(** *** The victim selector *)

Lemma getPodsToDelete_in_range (filteredPods : PodSlice) (diff : Z) :
  0 <= diff <= len filteredPods ->
  getPodsToDelete filteredPods diff
  = Some (map Some (firstn (Z.to_nat diff) filteredPods)) /\
  len (firstn (Z.to_nat diff) filteredPods) = diff.
Proof.
  intros [Hlo Hhi]. split.
  - unfold getPodsToDelete, cap, backing.
    pose proof (len_nonneg (spare filteredPods)).
    destruct (Z.leb_spec 0 diff); [|lia].
    destruct (Z.leb_spec diff (len filteredPods + len (spare filteredPods)));
      [|lia].
    cbn [andb]. f_equal. rewrite firstn_app, length_map.
    replace (Z.to_nat diff - List.length filteredPods)%nat with 0%nat
      by (unfold len in Hhi; lia).
    cbn [firstn]. rewrite app_nil_r. apply firstn_map.
  - unfold len in *. rewrite firstn_length_le; lia.
Qed.

(** C8. For a count between 0 and the length of the list, [getPodsToDelete]
    returns (pointers to) the first [count] elements of the list in their
    order: the
    result is a prefix of the input, has exactly [count] elements, holds at
    each position the element the input holds there, and has no element twice
    when the input has none. It is a function of its two arguments. *)
Theorem getPodsToDelete_prefix (filteredPods : PodSlice) (diff : Z) :
  0 <= diff <= len filteredPods ->
  exists podToDelete rest,
    getPodsToDelete filteredPods diff = Some (map Some podToDelete) /\
    podToDelete = firstn (Z.to_nat diff) filteredPods /\
    items filteredPods = podToDelete ++ rest /\
    len podToDelete = diff /\
    (forall i, (i < Z.to_nat diff)%nat ->
               nth_error podToDelete i = nth_error filteredPods i) /\
    (NoDup filteredPods -> NoDup podToDelete) /\
    (forall pods' diff', pods' = filteredPods -> diff' = diff ->
                         getPodsToDelete pods' diff'
                         = Some (map Some podToDelete)).
Proof.
  intros Hrange.
  destruct (getPodsToDelete_in_range filteredPods diff Hrange) as [Hget Hlen].
  exists (firstn (Z.to_nat diff) filteredPods),
         (skipn (Z.to_nat diff) filteredPods).
  repeat split.
  - exact Hget.
  - symmetry. apply firstn_skipn.
  - exact Hlen.
  - intros i Hi. rewrite nth_error_firstn.
    destruct (Nat.ltb_spec i (Z.to_nat diff)); [reflexivity|lia].
  - intros Hnd.
    rewrite <- (firstn_skipn (Z.to_nat diff) filteredPods) in Hnd.
    apply NoDup_app_remove_r in Hnd. exact Hnd.
  - intros pods' diff' -> ->. exact Hget.
Qed.

Lemma getPodsToDelete_prefix_witness :
  let filteredPods :=
    {| items := [Fake.pod "a" None; Fake.pod "b" None; Fake.pod "c" None];
       spare := [None] |} in
  0 <= 2 <= len filteredPods /\
  exists podToDelete,
    getPodsToDelete filteredPods 2 = Some (map Some podToDelete) /\
    podToDelete = [Fake.pod "a" None; Fake.pod "b" None].
Proof.
  intros filteredPods.
  assert (H : 0 <= 2 <= len filteredPods) by (unfold len; simpl; lia).
  split; [exact H|].
  destruct (getPodsToDelete_prefix filteredPods 2 H)
    as (podToDelete & rest & Hget & Hfirst & _).
  exists podToDelete. split; [exact Hget | exact Hfirst].
Defined.

(** *** The monad *)

Lemma Out_eta {W A : Type} (o : Out W A) :
  {| res := res o; world := world o; events := events o |} = o.
Proof. destruct o; reflexivity. Qed.

Lemma bind_ret {W A B : Type} (a : A) (f : A -> M W B) (w : W) :
  bind (ret a) f w = f a w.
Proof. unfold bind, ret. simpl. apply Out_eta. Qed.

Lemma bind_emit {W B : Type} (ev : Event) (k : M W B) (w : W) :
  bind (emit ev) (fun _ => k) w
  = {| res := res (k w); world := world (k w); events := ev :: events (k w) |}.
Proof. reflexivity. Qed.

Lemma bind_res_Ret {W A B : Type} (m : M W A) (f : A -> M W B) (w : W) (a : A) :
  res (m w) = Ret a ->
  bind m f w
  = {| res := res (f a (world (m w))); world := world (f a (world (m w)));
       events := events (m w) ++ events (f a (world (m w))) |}.
Proof. intros H. unfold bind. rewrite H. reflexivity. Qed.

Lemma bind_res_Panic {W A B : Type} (m : M W A) (f : A -> M W B) (w : W)
    (msg : string) :
  res (m w) = Panic msg ->
  bind m f w
  = {| res := Panic msg; world := world (m w); events := events (m w) |}.
Proof. intros H. unfold bind. rewrite H. reflexivity. Qed.

Section Properties.

Context {W : Type} {client : Client W}.
Variable BurstReplicas : Z.
Variable parsePodSelector : PodSet -> Selector + error.
Variable room : list Pod -> list (option Pod).
Variable GetPodFromTemplate :
  PodTemplateSpec -> PodSet -> OwnerReference -> Pod + error.

Local Abbreviation clamp := (clamp BurstReplicas).
Local Abbreviation createPod := (createPod GetPodFromTemplate).
Local Abbreviation scaleUp := (scaleUp GetPodFromTemplate).
Local Abbreviation manageReplicas :=
  (manageReplicas BurstReplicas GetPodFromTemplate).
Local Abbreviation FilterActivePods := (FilterActivePods room).
Local Abbreviation Reconcile :=
  (Reconcile BurstReplicas parsePodSelector room GetPodFromTemplate).

(** *** The replica diff *)

Lemma clamp_min (diff : Z) : clamp diff = Z.min diff BurstReplicas.
Proof.
  unfold clamp. destruct (Z.gtb_spec diff BurstReplicas); lia.
Qed.

Lemma manageReplicas_cases (sched : list nat) (filteredPods : PodSlice)
    (podSet : PodSet) (D : Z) (w : W) :
  SpecReplicas (Spec podSet) = Some D ->
  MinInt32 <= D <= MaxInt32 ->
  len filteredPods < 2 ^ 62 ->
  let A := len filteredPods in
  let amount := Z.min (Z.abs (A - D)) BurstReplicas in
  (A < D /\ manageReplicas sched filteredPods podSet w
            = scaleUp sched podSet D amount w) \/
  (A > D /\ manageReplicas sched filteredPods podSet w
            = scaleDown sched filteredPods D amount w) \/
  (A = D /\ manageReplicas sched filteredPods podSet w = ret None w).
Proof.
  intros HD HrD HA A amount.
  assert (H0 : 0 <= A) by apply len_nonneg.
  unfold MinInt32, MaxInt32 in HrD.
  change (2 ^ 31) with 2147483648 in HrD.
  change (2 ^ 62) with 4611686018427387904 in HA.
  assert (Hdiff : wrap64 (A - D) = A - D).
  { apply wrap64_small. change (2 ^ 63) with 9223372036854775808. lia. }
  unfold manageReplicas. rewrite HD. cbn [orPanic].
  rewrite bind_ret. fold A. rewrite Hdiff.
  destruct (Z.ltb_spec (A - D) 0) as [Hlt|Hge].
  - left. split; [lia|].
    assert (Hneg : wrap64 ((A - D) * -1) = D - A).
    { rewrite wrap64_small; [lia|].
      change (2 ^ 63) with 9223372036854775808. lia. }
    rewrite Hneg, clamp_min. subst amount.
    replace (Z.abs (A - D)) with (D - A) by lia. reflexivity.
  - destruct (Z.gtb_spec (A - D) 0) as [Hgt|Hle].
    + right; left. split; [lia|].
      rewrite clamp_min. subst amount.
      replace (Z.abs (A - D)) with (A - D) by lia. reflexivity.
    + right; right. split; [lia|reflexivity].
Qed.

(** *** The status calculation *)

Lemma IsPodAvailable_zero (pod : Pod) (now : Time) :
  IsPodAvailable pod 0 now = IsPodReady pod.
Proof.
  unfold IsPodAvailable, IsPodReady. destruct (ReadySince pod); reflexivity.
Qed.

Lemma filter_ready_available (now : Time) (pods : list Pod) :
  filter (fun pod => IsPodReady pod && IsPodAvailable pod 0 now) pods
  = filter IsPodReady pods.
Proof.
  apply filter_ext. intros pod. rewrite IsPodAvailable_zero.
  apply andb_diag.
Qed.

(** The loop reads the clock once for each ready pod and emits nothing. *)
Lemma countReplicas_total (pods : list Pod) :
  forall (ready avail : Z) (w : W),
  exists counts w',
    countReplicas pods ready avail w
    = {| res := Ret counts; world := w'; events := [] |}.
Proof.
  induction pods as [|pod rest IH]; intros ready avail w; cbn [countReplicas].
  - exists (ready, avail), w. reflexivity.
  - destruct (IsPodReady pod); [|apply IH].
    unfold bind, metav1_Now. destruct (Now w) as [t w1]. cbn.
    destruct (IsPodAvailable pod 0 t).
    + destruct (IH (wrap64 (ready + 1)) (wrap64 (avail + 1)) w1)
        as (c & w' & ->).
      exists c, w'. reflexivity.
    + destruct (IH (wrap64 (ready + 1)) avail w1) as (c & w' & ->).
      exists c, w'. reflexivity.
Qed.

Lemma countReplicas_counts (pods : list Pod) :
  forall (ready avail : Z) (w : W),
    0 <= ready -> 0 <= avail ->
    ready + len pods < 2 ^ 63 -> avail + len pods < 2 ^ 63 ->
    exists w',
      countReplicas pods ready avail w
      = {| res := Ret (ready + len (filter IsPodReady pods),
                       avail + len (filter IsPodReady pods));
           world := w'; events := [] |}.
Proof.
  induction pods as [|pod rest IH]; intros ready avail w Hr Ha Hrb Hab;
    cbn [countReplicas filter].
  - exists w. unfold len. cbn. rewrite !Z.add_0_r. reflexivity.
  - rewrite len_cons in Hrb, Hab.
    pose proof (len_nonneg rest) as Hrest.
    destruct (IsPodReady pod) eqn:Hready.
    + unfold bind, metav1_Now. destruct (Now w) as [t w1].
      cbn [res world events].
      rewrite IsPodAvailable_zero, Hready.
      rewrite !wrap64_small by lia.
      destruct (IH (ready + 1) (avail + 1) w1) as (w' & ->); try lia.
      exists w'. rewrite len_cons.
      replace (ready + (len (filter IsPodReady rest) + 1))
        with (ready + 1 + len (filter IsPodReady rest)) by lia.
      replace (avail + (len (filter IsPodReady rest) + 1))
        with (avail + 1 + len (filter IsPodReady rest)) by lia.
      reflexivity.
    + apply IH; lia.
Qed.

(** C7. [calculateStatus] returns a status whose [Replicas] is the number
    of active instances, whose [ReadyReplicas] is the number of those that
    are ready and whose [AvailableReplicas] is the number of those that are
    ready and available, whatever the clock says; hence
    AvailableReplicas <= ReadyReplicas <= Replicas. The counts are [int32]:
    the list is taken to have at most [MaxInt32] elements. *)
Theorem calculateStatus_counts (podSet : PodSet) (filteredPods : PodSlice)
    (replicasErr : option error) (w : W) :
  len filteredPods <= MaxInt32 ->
  exists newStatus w',
    calculateStatus podSet filteredPods replicasErr w
    = {| res := Ret newStatus; world := w'; events := [] |} /\
    Replicas newStatus = len filteredPods /\
    ReadyReplicas newStatus = len (filter IsPodReady filteredPods) /\
    (forall now : Time,
       AvailableReplicas newStatus
       = len (filter (fun pod => IsPodReady pod && IsPodAvailable pod 0 now)
                filteredPods)) /\
    AvailableReplicas newStatus <= ReadyReplicas newStatus <= Replicas newStatus.
Proof.
  intros Hlen.
  pose proof (len_nonneg filteredPods) as H0.
  pose proof (len_nonneg (filter IsPodReady filteredPods)) as H1.
  pose proof (len_filter_le IsPodReady filteredPods) as H2.
  assert (Hmax : MaxInt32 = 2147483647) by reflexivity.
  destruct (@countReplicas_counts filteredPods 0 0 w) as (w' & Hc); try lia.
  unfold calculateStatus, bind. rewrite Hc. cbn [res world events fst snd app].
  eexists; exists w'. split; [reflexivity|].
  cbn [Replicas ReadyReplicas AvailableReplicas].
  assert (Hmin : MinInt32 = -2147483648) by reflexivity.
  rewrite !wrap32_small by lia.
  repeat split; try lia.
  intros now. rewrite filter_ready_available. reflexivity.
Qed.

Lemma calculateStatus_total (podSet : PodSet) (filteredPods : PodSlice)
    (replicasErr : option error) (w : W) :
  exists counts w',
    calculateStatus podSet filteredPods replicasErr w
    = {| res := Ret {| Replicas := wrap32 (len filteredPods);
                       ReadyReplicas := wrap32 (fst counts);
                       AvailableReplicas := wrap32 (snd counts);
                       ObservedGeneration :=
                         ObservedGeneration (Status podSet) |};
         world := w'; events := [] |}.
Proof.
  destruct (countReplicas_total filteredPods 0 0 w) as (c & w' & Hc).
  unfold calculateStatus, bind. rewrite Hc. cbn.
  exists c, w'. reflexivity.
Qed.

(** C9. [calculateStatus] starts from the stored status of the workload and
    sets [Replicas], [ReadyReplicas] and [AvailableReplicas] only: the status
    it returns carries the stored [ObservedGeneration]. So the test of
    [updatePodSetStatus] on the computed status compares the generation of
    the workload with the stored observed generation. *)
Theorem calculateStatus_frame (podSet : PodSet) (filteredPods : PodSlice)
    (replicasErr : option error) (w : W) :
  exists newStatus w',
    calculateStatus podSet filteredPods replicasErr w
    = {| res := Ret newStatus; world := w'; events := [] |} /\
    ObservedGeneration newStatus = ObservedGeneration (Status podSet) /\
    newStatus
    = {| Replicas := Replicas newStatus;
         ReadyReplicas := ReadyReplicas newStatus;
         AvailableReplicas := AvailableReplicas newStatus;
         ObservedGeneration := ObservedGeneration (Status podSet) |} /\
    sameStatus podSet newStatus
    = (Replicas (Status podSet) =? Replicas newStatus) &&
      (ReadyReplicas (Status podSet) =? ReadyReplicas newStatus) &&
      (AvailableReplicas (Status podSet) =? AvailableReplicas newStatus) &&
      (Generation podSet =? ObservedGeneration (Status podSet)).
Proof.
  destruct (calculateStatus_total podSet filteredPods replicasErr w)
    as (c & w' & Hc).
  rewrite Hc. eexists; exists w'. split; [reflexivity|]. cbn.
  repeat split.
Qed.

(** *** The status commit *)

Lemma sameStatus_true (podSet : PodSet) (newStatus : PodSetStatus) :
  sameStatus podSet newStatus = true <->
  Replicas (Status podSet) = Replicas newStatus /\
  ReadyReplicas (Status podSet) = ReadyReplicas newStatus /\
  AvailableReplicas (Status podSet) = AvailableReplicas newStatus /\
  Generation podSet = ObservedGeneration newStatus.
Proof.
  unfold sameStatus. rewrite !andb_true_iff, !Z.eqb_eq.
  split; [intros [[[Hr Hrr] Ha] Hg]|intros (Hr & Hrr & Ha & Hg)];
    repeat split; assumption.
Qed.

Lemma updatePodSetStatus_skip (podSet : PodSet) (newStatus : PodSetStatus)
    (w : W) :
  sameStatus podSet newStatus = true ->
  updatePodSetStatus podSet newStatus w
  = ret {| updated := podSet; returned := Some podSet; failure := None |} w.
Proof. intros H. unfold updatePodSetStatus. rewrite H. reflexivity. Qed.

Lemma updatePodSetStatus_write (podSet : PodSet) (newStatus : PodSetStatus)
    (w : W) :
  sameStatus podSet newStatus = false ->
  let written :=
    SetStatus podSet (SetObservedGeneration newStatus (Generation podSet)) in
  updatePodSetStatus podSet newStatus w
  = {| res := Ret match fst (StatusUpdate written w) with
                  | inl podSet' =>
                      {| updated := podSet'; returned := Some podSet';
                         failure := None |}
                  | inr err =>
                      {| updated := written; returned := None;
                         failure := Some err |}
                  end;
       world := snd (StatusUpdate written w);
       events := [EvStatusUpdate written
                    (replyError (fst (StatusUpdate written w)))] |}.
Proof.
  intros H written. unfold updatePodSetStatus. rewrite H.
  fold written. unfold bind, r_Status_Update.
  destruct (StatusUpdate written w) as [[podSet'|err] w']; reflexivity.
Qed.

(** C3. For a new status that carries the stored observed generation, as
    every status computed by [calculateStatus] does, [updatePodSetStatus]
    writes nothing and returns the workload it was given iff the three counts
    of the new status are the stored ones and the generation of the workload
    is the stored observed generation. Otherwise it sets the observed
    generation to the generation of the workload, calls the status update of
    the store exactly once, and returns the record of the store or its error.
    Consequently a second commit, on the workload as the first one left it and
    with the same counts computed again, writes nothing. *)
Theorem updatePodSetStatus_commit (podSet : PodSet) (newStatus : PodSetStatus)
    (w : W) :
  ObservedGeneration newStatus = ObservedGeneration (Status podSet) ->
  StoreEchoes client ->
  let o := updatePodSetStatus podSet newStatus w in
  let written :=
    SetStatus podSet (SetObservedGeneration newStatus (Generation podSet)) in
  (storedStatusCurrent podSet newStatus <->
   count isStatusWrite (events o) = 0) /\
  (storedStatusCurrent podSet newStatus ->
   o = {| res := Ret {| updated := podSet; returned := Some podSet;
                        failure := None |};
          world := w; events := [] |}) /\
  (~ storedStatusCurrent podSet newStatus ->
   ObservedGeneration (Status written) = Generation podSet /\
   Replicas (Status written) = Replicas newStatus /\
   ReadyReplicas (Status written) = ReadyReplicas newStatus /\
   AvailableReplicas (Status written) = AvailableReplicas newStatus /\
   events o = [EvStatusUpdate written
                 (replyError (fst (StatusUpdate written w)))] /\
   count isStatusWrite (events o) = 1 /\
   world o = snd (StatusUpdate written w) /\
   res o = Ret match fst (StatusUpdate written w) with
               | inl podSet' =>
                   {| updated := podSet'; returned := Some podSet';
                      failure := None |}
               | inr err =>
                   {| updated := written; returned := None;
                      failure := Some err |}
               end) /\
  (forall (c : Commit) (newStatus2 : PodSetStatus) (w2 : W),
     res o = Ret c ->
     sameCounts newStatus2 newStatus ->
     ObservedGeneration newStatus2 = ObservedGeneration (Status (updated c)) ->
     updatePodSetStatus (updated c) newStatus2 w2
     = {| res := Ret {| updated := updated c; returned := Some (updated c);
                        failure := None |};
          world := w2; events := [] |}).
Proof.
  intros Hobs Hecho o written.
  assert (Hiff : sameStatus podSet newStatus = true
                 <-> storedStatusCurrent podSet newStatus).
  { rewrite sameStatus_true. unfold storedStatusCurrent. rewrite Hobs.
    split; intros (Hr & Hrr & Ha & Hg); repeat split; congruence. }
  destruct (sameStatus podSet newStatus) eqn:Hsame.
  - assert (Hcur : storedStatusCurrent podSet newStatus)
      by (apply Hiff; reflexivity).
    assert (Ho : o = ret {| updated := podSet; returned := Some podSet;
                            failure := None |} w)
      by (apply updatePodSetStatus_skip; exact Hsame).
    split; [|split; [|split]].
    + rewrite Ho. split; [reflexivity|intros _; exact Hcur].
    + intros _. exact Ho.
    + intros Hn. contradiction.
    + intros c newStatus2 w2 Hres (Hr & Hrr & Ha) Hobs2.
      rewrite Ho in Hres. cbn in Hres. injection Hres as <-. cbn [updated] in *.
      rewrite updatePodSetStatus_skip; [reflexivity|].
      apply sameStatus_true. apply sameStatus_true in Hsame.
      rewrite Hr, Hrr, Ha, Hobs2, <- Hobs. exact Hsame.
  - assert (Hcur : ~ storedStatusCurrent podSet newStatus).
    { intros Hc. apply Hiff in Hc. discriminate. }
    pose proof (updatePodSetStatus_write podSet newStatus w Hsame) as Ho.
    cbv zeta in Ho. fold written in Ho. fold o in Ho.
    split; [|split; [|split]].
    + rewrite Ho. cbn. split; [intros Hc; contradiction|discriminate].
    + intros Hc. contradiction.
    + intros _. rewrite Ho. cbn. repeat split.
    + intros c newStatus2 w2 Hres (Hr & Hrr & Ha) Hobs2.
      rewrite Ho in Hres. cbn [res] in Hres. injection Hres as Hc.
      apply updatePodSetStatus_skip. apply sameStatus_true.
      destruct (StatusUpdate written w) as [[podSet'|err] w'] eqn:Hup;
        cbn [fst] in Hc; subst c; cbn [updated] in *.
      * destruct (Hecho _ _ _ _ Hup) as [Hst Hgen].
        rewrite Hobs2, Hst, Hgen, Hr, Hrr, Ha. cbn. repeat split.
      * rewrite Hobs2, Hr, Hrr, Ha. cbn. repeat split.
Qed.

(** *** Goroutines *)

Lemma update_length {A : Type} (x : A) (l : list A) :
  forall i, List.length (update i x l) = List.length l.
Proof.
  induction l as [|h t IH]; intros [|i]; cbn; try reflexivity.
  now rewrite IH.
Qed.

Lemma nth_error_update_eq {A : Type} (x : A) (l : list A) :
  forall i, (i < List.length l)%nat -> nth_error (update i x l) i = Some x.
Proof.
  induction l as [|h t IH]; intros [|i] Hi; cbn in *; try lia.
  - reflexivity.
  - apply IH. lia.
Qed.

Lemma nth_error_update_neq {A : Type} (x : A) (l : list A) :
  forall i j, i <> j -> nth_error (update i x l) j = nth_error l j.
Proof.
  induction l as [|h t IH]; intros [|i] [|j] Hij; cbn; try reflexivity.
  - congruence.
  - apply IH. congruence.
Qed.

Lemma Forall_update {A : Type} (P : A -> Prop) (x : A) (l : list A) :
  Forall P l -> P x -> forall i, Forall P (update i x l).
Proof.
  induction 1 as [|h t Hh Ht IH]; intros Hx [|i]; cbn; auto.
Qed.

Lemma run_cons (i : nat) (s : list nat) (b : Batch W) :
  run (i :: s) b = run s (step b i).
Proof. reflexivity. Qed.

Lemma run_app (s1 s2 : list nat) (b : Batch W) :
  run (s1 ++ s2) b = run s2 (run s1 b).
Proof. unfold run. apply fold_left_app. Qed.

Section Healthy.

Variable P : M W (option error) -> Prop.
Hypothesis P_calm : forall body, P body -> calm body.

Lemma healthy_body (b : Batch W) (i : nat) (body : M W (option error)) :
  healthy P b -> nth_error (goroutines b) i = Some (Spawned body) -> P body.
Proof.
  intros [_ Hall] Hnth. unfold bodiesSatisfy in Hall.
  rewrite Forall_forall in Hall.
  apply (Hall (Spawned body)). eapply nth_error_In; eauto.
Qed.

Lemma step_healthy (b : Batch W) (i : nat) :
  healthy P b -> healthy P (step b i).
Proof.
  intros Hb. pose proof Hb as [Hc Hall]. unfold step. rewrite Hc.
  destruct (nth_error (goroutines b) i) as [[body|err|]|] eqn:Hnth; auto.
  - destruct (P_calm _ (healthy_body b i body Hb Hnth) (bworld b)) as [r Hr].
    rewrite Hr. destruct r as [err|]; split; cbn; auto;
      apply Forall_update; cbn; auto.
  - split; cbn; auto. apply Forall_update; cbn; auto.
Qed.

Lemma run_healthy (sched : list nat) :
  forall b, healthy P b -> healthy P (run sched b).
Proof.
  induction sched as [|i s IH]; intros b Hb; [exact Hb|].
  rewrite run_cons. apply IH, step_healthy, Hb.
Qed.

Lemma step_rank_other (b : Batch W) (i j : nat) :
  i <> j -> rankAt (step b i) j = rankAt b j.
Proof.
  intros Hij. unfold step, rankAt.
  destruct (crashed b); auto.
  destruct (nth_error (goroutines b) i) as [[body|err|]|]; auto.
  - destruct (res (body (bworld b))) as [[e|]|msg]; cbn;
      rewrite ?nth_error_update_neq by exact Hij; reflexivity.
  - cbn. rewrite nth_error_update_neq by exact Hij. reflexivity.
Qed.

Lemma step_rank_same (b : Batch W) (i : nat) :
  healthy P b -> (rankAt (step b i) i <= rankAt b i - 1)%nat.
Proof.
  intros Hb. pose proof Hb as [Hc Hall]. unfold step, rankAt. rewrite Hc.
  destruct (nth_error (goroutines b) i) as [[body|err|]|] eqn:Hnth.
  - assert (Hi : (i < List.length (goroutines b))%nat)
      by (apply nth_error_Some; congruence).
    destruct (P_calm _ (healthy_body b i body Hb Hnth) (bworld b)) as [r Hr].
    rewrite Hr. destruct r as [e|]; cbn;
      rewrite nth_error_update_eq by exact Hi; cbn; lia.
  - assert (Hi : (i < List.length (goroutines b))%nat)
      by (apply nth_error_Some; congruence).
    cbn. rewrite nth_error_update_eq by exact Hi. cbn. lia.
  - rewrite Hnth. cbn. lia.
  - rewrite Hnth. lia.
Qed.

Lemma step_rank_le (b : Batch W) (i j : nat) :
  healthy P b -> (rankAt (step b i) j <= rankAt b j)%nat.
Proof.
  intros Hb. destruct (Nat.eq_dec i j) as [->|Hij].
  - pose proof (step_rank_same b j Hb). lia.
  - rewrite step_rank_other by exact Hij. lia.
Qed.

Lemma run_rank_le (sched : list nat) (j : nat) :
  forall b, healthy P b -> (rankAt (run sched b) j <= rankAt b j)%nat.
Proof.
  induction sched as [|i s IH]; intros b Hb; [cbn; lia|].
  rewrite run_cons. pose proof (IH _ (step_healthy b i Hb)).
  pose proof (step_rank_le b i j Hb). lia.
Qed.

Lemma run_rank_dec (sched : list nat) (j : nat) :
  forall b, healthy P b -> In j sched ->
            (rankAt (run sched b) j <= rankAt b j - 1)%nat.
Proof.
  induction sched as [|i s IH]; intros b Hb Hin; [destruct Hin|].
  rewrite run_cons.
  destruct (Nat.eq_dec i j) as [->|Hij].
  - pose proof (run_rank_le s j _ (step_healthy b j Hb)).
    pose proof (step_rank_same b j Hb). lia.
  - destruct Hin as [Heq|Hin]; [congruence|].
    pose proof (IH _ (step_healthy b i Hb) Hin).
    rewrite step_rank_other in H by exact Hij. exact H.
Qed.

Lemma spawn_healthy (bodies : list (M W (option error))) (w : W) :
  Forall P bodies -> healthy P (spawn bodies w).
Proof.
  intros Hall. split; [reflexivity|]. cbn. unfold bodiesSatisfy.
  induction Hall; cbn; constructor; auto.
Qed.

Lemma rank_le_2 (b : Batch W) (j : nat) : (rankAt b j <= 2)%nat.
Proof.
  unfold rankAt. destruct (nth_error (goroutines b) j) as [[| |]|]; cbn; lia.
Qed.

Lemma run_length (sched : list nat) :
  forall b : Batch W,
    List.length (goroutines (run sched b)) = List.length (goroutines b).
Proof.
  induction sched as [|i s IH]; intros b; [reflexivity|].
  rewrite run_cons, IH. unfold step.
  destruct (crashed b); auto.
  destruct (nth_error (goroutines b) i) as [[body|err|]|]; auto.
  - destruct (res (body (bworld b))) as [[e|]|msg]; cbn;
      rewrite ?update_length; reflexivity.
  - cbn. apply update_length.
Qed.

(** The join barrier: when [wg.Wait] returns, every goroutine of the batch
    has run its body and has exited, and none has panicked. *)
Lemma wait_all_exited (sched : list nat) (bodies : list (M W (option error)))
    (w : W) :
  Forall P bodies ->
  let n := List.length bodies in
  let b := run (sched ++ seq 0 n ++ seq 0 n) (spawn bodies w) in
  healthy P b /\
  List.length (goroutines b) = n /\
  forall j, rankAt b j = 0%nat.
Proof.
  intros Hall n b.
  pose proof (spawn_healthy bodies w Hall) as H0.
  split; [apply run_healthy, H0|].
  split.
  { subst b. rewrite run_length. cbn. apply length_map. }
  intros j. subst b. rewrite !run_app.
  set (b1 := run sched (spawn bodies w)).
  assert (H1 : healthy P b1) by (apply run_healthy, H0).
  set (b2 := run (seq 0 n) b1).
  assert (H2 : healthy P b2) by (apply run_healthy, H1).
  destruct (Nat.lt_ge_cases j n) as [Hj|Hj].
  - assert (Hin : In j (seq 0 n)) by (apply in_seq; lia).
    pose proof (run_rank_dec (seq 0 n) j b2 H2 Hin).
    pose proof (run_rank_dec (seq 0 n) j b1 H1 Hin).
    pose proof (rank_le_2 b1 j). fold b2 in H3. lia.
  - unfold rankAt.
    assert (Hlen : List.length (goroutines (run (seq 0 n) b2)) = n).
    { subst b2 b1. rewrite !run_length. cbn. apply length_map. }
    destruct (nth_error (goroutines (run (seq 0 n) b2)) j) eqn:Hnth;
      [|reflexivity].
    assert (j < n)%nat by (rewrite <- Hlen; apply nth_error_Some; congruence).
    lia.
Qed.

End Healthy.

Section Reporting.

Variable bad : Event -> bool.

Lemma reports_calm (body : M W (option error)) : reports bad body -> calm body.
Proof.
  intros H w. destruct (H w) as (r & Hr & _). exists r. exact Hr.
Qed.

Lemma step_tidy (b : Batch W) (i : nat) :
  healthy (reports bad) b -> tidy bad b -> tidy bad (step b i).
Proof.
  intros Hb Ht. pose proof Hb as [Hc Hall]. unfold step. rewrite Hc.
  destruct (nth_error (goroutines b) i) as [[body|err|]|] eqn:Hnth; auto.
  - assert (Hi : (i < List.length (goroutines b))%nat)
      by (apply nth_error_Some; congruence).
    destruct (healthy_body _ b i body Hb Hnth (bworld b)) as (r & Hr & Hiff).
    rewrite Hr. destruct r as [e|]; unfold tidy; cbn [errCh bevents].
    + split.
      * intros [_ Hns]. exfalso. apply Hns. exists i, e. cbn.
        apply nth_error_update_eq. exact Hi.
      * intros Hex. rewrite existsb_app in Hex.
        apply orb_false_iff in Hex as [_ Hex].
        apply Hiff in Hex. discriminate.
    + assert (Hev : existsb bad (events (body (bworld b))) = false)
        by (apply Hiff; reflexivity).
      rewrite existsb_app, Hev, orb_false_r.
      split.
      * intros [Hch Hns]. apply Ht. split; [exact Hch|].
        intros (j & e & Hj). apply Hns. exists j, e. cbn [goroutines].
        destruct (Nat.eq_dec i j) as [->|Hij]; [congruence|].
        rewrite nth_error_update_neq by exact Hij. exact Hj.
      * intros Hex. apply Ht in Hex as [Hch Hns]. split; [exact Hch|].
        intros (j & e & Hj). apply Hns. exists j, e. cbn [goroutines] in Hj.
        destruct (Nat.eq_dec i j) as [->|Hij].
        -- rewrite nth_error_update_eq in Hj by exact Hi. discriminate.
        -- rewrite nth_error_update_neq in Hj by exact Hij. exact Hj.
  - unfold tidy; cbn [errCh bevents]. split.
    + intros [Hch _]. apply app_eq_nil in Hch as [_ Hch]. discriminate.
    + intros Hex. apply Ht in Hex as [_ Hns]. exfalso. apply Hns.
      exists i, err. exact Hnth.
Qed.

Lemma run_tidy (sched : list nat) :
  forall b : Batch W,
    healthy (reports bad) b -> tidy bad b -> tidy bad (run sched b).
Proof.
  induction sched as [|i s IH]; intros b Hb Ht; [exact Ht|].
  rewrite run_cons. apply IH.
  - apply (step_healthy _ reports_calm), Hb.
  - apply step_tidy; assumption.
Qed.

Lemma spawn_tidy (bodies : list (M W (option error))) (w : W) :
  tidy bad (spawn bodies w).
Proof.
  unfold tidy. cbn. split; [reflexivity|]. intros _. split; [reflexivity|].
  intros (j & e & Hj). cbn in Hj. rewrite nth_error_map in Hj.
  destruct (nth_error bodies j); discriminate.
Qed.

(** After the wait the channel is empty exactly when no body emitted an
    event marked by [bad], under any schedule. *)
Lemma goAndWait_reports (sched : list nat) (bodies : list (M W (option error)))
    (w : W) :
  Forall (reports bad) bodies ->
  exists ch,
    res (goAndWait sched bodies w) = Ret ch /\
    (ch = [] <-> existsb bad (events (goAndWait sched bodies w)) = false).
Proof.
  intros Hall.
  destruct (wait_all_exited _ reports_calm sched bodies w Hall)
    as ([Hc Hb] & _ & Hrank).
  pose proof (run_tidy (sched ++ seq 0 (List.length bodies)
                          ++ seq 0 (List.length bodies))
                (spawn bodies w)
                (spawn_healthy _ bodies w Hall) (spawn_tidy bodies w)) as Ht.
  unfold goAndWait. cbn [res events]. rewrite Hc.
  eexists. split; [reflexivity|].
  unfold tidy in Ht. split.
  - intros Hch. apply Ht. split; [exact Hch|].
    intros (j & e & Hj). specialize (Hrank j). unfold rankAt in Hrank.
    rewrite Hj in Hrank. discriminate.
  - intros Hex. apply Ht in Hex as [Hch _]. exact Hch.
Qed.

End Reporting.

(** A batch whose bodies never panic returns from the wait. *)
Lemma goAndWait_calm (sched : list nat) (bodies : list (M W (option error)))
    (w : W) :
  Forall calm bodies ->
  exists ch, res (goAndWait sched bodies w) = Ret ch.
Proof.
  intros Hall.
  destruct (wait_all_exited calm (fun _ H => H) sched bodies w Hall)
    as ([Hc _] & _).
  unfold goAndWait. cbn [res]. rewrite Hc. eexists. reflexivity.
Qed.

(** *** createPod and deletePod never panic *)

Lemma createPod_calm (ns : string) (template : PodTemplateSpec)
    (object : PodSet) (controllerRef : OwnerReference) :
  calm (createPod ns template object controllerRef).
Proof.
  intros w. unfold createPod.
  destruct (validateControllerRef controllerRef); [eexists; reflexivity|].
  destruct (GetPodFromTemplate template object controllerRef) as [pod|err];
    [|eexists; reflexivity].
  unfold bind, r_Create.
  match goal with |- context [Create ?p w] =>
    destruct (Create p w) as [[pod'|err] w'] end; cbn.
  - eexists; reflexivity.
  - destruct (HasStatusCause err NamespaceTerminatingCause); cbn;
      eexists; reflexivity.
Qed.

Lemma deleteBody_reports (targetPod : Pod) :
  reports isHardDeleteFailure (deleteBody (Some targetPod)).
Proof.
  intros w. unfold deleteBody, deletePod, bind, r_Delete.
  match goal with |- context [Delete ?p w] =>
    destruct (Delete p w) as [[err|] w'] end; cbn.
  - destruct (IsNotFound err) eqn:Hnf; cbn; rewrite ?Hnf; cbn.
    + exists None. split; [reflexivity|]. split; reflexivity.
    + eexists. split; [reflexivity|]. split; discriminate.
  - exists None. split; [reflexivity|]. split; reflexivity.
Qed.

(** *** The batches of manageReplicas *)

(** Whatever its goroutines put on the channel, [createPodsInBatch] returns
    [0, nil]. *)
Lemma createPodsInBatch_nil (sched : list nat) (count initialBatchSize : Z)
    (fn : M W (option error)) (w : W) :
  0 <= count -> calm fn ->
  res (createPodsInBatch sched count initialBatchSize fn w) = Ret (0, None).
Proof.
  intros Hcount Hfn. unfold createPodsInBatch.
  destruct (Z.ltb_spec count 0); [lia|].
  destruct (goAndWait_calm sched (repeat fn (Z.to_nat count)) w) as [ch Hch].
  { apply Forall_forall. intros body Hin.
    apply repeat_spec in Hin. subst body. exact Hfn. }
  rewrite (bind_res_Ret _ _ _ ch Hch). reflexivity.
Qed.

Lemma scaleUp_nil (sched : list nat) (podSet : PodSet) (replicas diff : Z)
    (w : W) :
  0 <= diff -> res (scaleUp sched podSet replicas diff w) = Ret None.
Proof.
  intros Hdiff. unfold scaleUp. rewrite bind_emit. cbn [res].
  match goal with |- res (bind ?m ?f ?w0) = _ =>
    rewrite (bind_res_Ret m f w0 (0, None))
  end; [reflexivity|].
  apply createPodsInBatch_nil; [exact Hdiff|apply createPod_calm].
Qed.

Lemma scaleDown_result (sched : list nat) (filteredPods : PodSlice)
    (replicas diff : Z) (w : W) :
  0 <= diff <= len filteredPods ->
  let o := scaleDown sched filteredPods replicas diff w in
  exists r,
    res o = Ret r /\
    (r = None <-> existsb isHardDeleteFailure (events o) = false).
Proof.
  intros Hdiff o.
  destruct (getPodsToDelete_in_range filteredPods diff Hdiff) as [Hget _].
  set (podToDelete := map Some (firstn (Z.to_nat diff) filteredPods)) in *.
  destruct (goAndWait_reports isHardDeleteFailure sched
              (map deleteBody podToDelete) w) as (ch & Hch & Hiff).
  { apply Forall_forall. intros body Hin.
    apply in_map_iff in Hin as (ptr & <- & Hptr).
    apply in_map_iff in Hptr as (pod & <- & _). apply deleteBody_reports. }
  subst o. unfold scaleDown. rewrite bind_emit. cbn [res events existsb].
  rewrite Hget. cbn [orPanic]. rewrite bind_ret.
  match goal with |- context [bind ?m ?f w] =>
    rewrite (bind_res_Ret m f w ch Hch)
  end.
  cbn [res events isHardDeleteFailure orb].
  rewrite existsb_app.
  destruct ch as [|err ch]; cbn [res events existsb]; rewrite orb_false_r.
  - exists None. split; [reflexivity|]. split; [intros _|reflexivity].
    apply Hiff. reflexivity.
  - exists (Some err). split; [reflexivity|]. split; [discriminate|].
    intros Hex. apply Hiff in Hex. discriminate.
Qed.

(** C4. On scale-down, with a desired count that is not negative, the batch
    of deletes returns to the reconciler, and when every delete that failed
    failed with not-found it returns no error. (The batch returns an error
    exactly when some delete failed with another error.) *)
Theorem delete_batch_not_found_is_success (sched : list nat)
    (filteredPods : PodSlice) (podSet : PodSet) (D : Z) (w : W) :
  SpecReplicas (Spec podSet) = Some D ->
  0 <= D <= MaxInt32 ->
  D < len filteredPods < 2 ^ 62 ->
  0 <= BurstReplicas ->
  let o := manageReplicas sched filteredPods podSet w in
  exists r,
    res o = Ret r /\
    (existsb isHardDeleteFailure (events o) = false -> r = None) /\
    (r = None -> existsb isHardDeleteFailure (events o) = false).
Proof.
  intros HD HrD [HA Hlen] HB o.
  assert (HrD' : MinInt32 <= D <= MaxInt32)
    by (unfold MinInt32; change (2 ^ 31) with 2147483648; lia).
  destruct (manageReplicas_cases sched filteredPods podSet D w HD HrD' Hlen)
    as [[Hc _]|[[_ Heq]|[Hc _]]]; try lia.
  subst o. rewrite Heq.
  destruct (scaleDown_result sched filteredPods D
              (Z.min (Z.abs (len filteredPods - D)) BurstReplicas) w)
    as (r & Hr & Hiff); [lia|].
  exists r. split; [exact Hr|]. split; apply Hiff.
Qed.

(** C10, amended. With a desired count that is not negative and a positive
    burst ceiling, whenever [manageReplicas] takes the scale-down branch the
    clamped delete count [diff] satisfies 0 < diff <= len(filteredPods): the
    slice taken by [getPodsToDelete] is in bounds, within the length of the
    list, and [manageReplicas] does not panic. *)
Theorem scale_down_in_bounds (sched : list nat) (filteredPods : PodSlice)
    (podSet : PodSet) (D : Z) (w : W) :
  SpecReplicas (Spec podSet) = Some D ->
  0 <= D <= MaxInt32 ->
  len filteredPods < 2 ^ 62 ->
  0 < BurstReplicas ->
  len filteredPods - D > 0 ->
  let diff := clamp (wrap64 (len filteredPods - D)) in
  0 < diff <= len filteredPods /\
  manageReplicas sched filteredPods podSet w
  = scaleDown sched filteredPods D diff w /\
  (exists podToDelete,
     getPodsToDelete filteredPods diff = Some podToDelete /\
     len podToDelete = diff /\
     podToDelete = map Some (firstn (Z.to_nat diff) filteredPods)) /\
  exists r, res (manageReplicas sched filteredPods podSet w) = Ret r.
Proof.
  intros HD HrD Hlen HB Hdown diff.
  assert (HrD' : MinInt32 <= D <= MaxInt32)
    by (unfold MinInt32; change (2 ^ 31) with 2147483648; lia).
  assert (Hdiff : diff = Z.min (Z.abs (len filteredPods - D)) BurstReplicas).
  { subst diff. rewrite clamp_min, wrap64_small; [f_equal; lia|].
    unfold MaxInt32 in HrD. change (2 ^ 31) with 2147483648 in HrD.
    change (2 ^ 62) with 4611686018427387904 in Hlen.
    change (2 ^ 63) with 9223372036854775808. lia. }
  assert (Hb : 0 < diff <= len filteredPods) by lia.
  destruct (manageReplicas_cases sched filteredPods podSet D w HD HrD' Hlen)
    as [[Hc _]|[[_ Heq]|[Hc _]]]; try lia.
  rewrite <- Hdiff in Heq.
  split; [exact Hb|]. split; [exact Heq|]. split.
  - destruct (getPodsToDelete_in_range filteredPods diff) as [Hget Hl];
      [lia|].
    eexists. split; [exact Hget|]. split; [|reflexivity].
    unfold len in *. rewrite length_map. exact Hl.
  - rewrite Heq.
    destruct (scaleDown_result sched filteredPods D diff w) as (r & Hr & _);
      [lia|].
    exists r. exact Hr.
Qed.

(** *** Reconcile *)

Lemma bind_r_Get {B : Type} (key : NamespacedName) (f : PodSet + error -> M W B)
    (w w1 : W) (reply : PodSet + error) :
  Get key w = (reply, w1) ->
  bind (r_Get key) f w
  = {| res := res (f reply w1); world := world (f reply w1);
       events := EvGet key reply :: events (f reply w1) |}.
Proof. intros H. unfold bind, r_Get. rewrite H. reflexivity. Qed.

Lemma bind_r_List {B : Type} (ns : string) (sel : Selector)
    (f : list Pod + error -> M W B) (w w1 : W) (reply : list Pod + error) :
  List ns sel w = (reply, w1) ->
  bind (r_List ns sel) f w
  = {| res := res (f reply w1); world := world (f reply w1);
       events := EvList ns sel reply :: events (f reply w1) |}.
Proof. intros H. unfold bind, r_List. rewrite H. reflexivity. Qed.

Lemma updatePodSetStatus_total (podSet : PodSet) (newStatus : PodSetStatus)
    (w : W) :
  let c := updatePodSetStatus podSet newStatus w in
  exists cm,
    res c = Ret cm /\
    existsb isCreate (events c) = false /\
    existsb isDelete (events c) = false.
Proof.
  intros c. subst c. destruct (sameStatus podSet newStatus) eqn:Hsame.
  - rewrite updatePodSetStatus_skip by exact Hsame.
    eexists. repeat split.
  - rewrite updatePodSetStatus_write by exact Hsame.
    eexists. repeat split.
Qed.

(** Once the workload is fetched and its pods are listed, the pass goes
    through replica management (unless the workload is being deleted), the
    status calculation and the commit, and its result is decided by the commit
    alone. *)
Lemma Reconcile_listed (sched : list nat) (req : Request) (w w1 w2 : W)
    (podSet : PodSet) (labelSelector : Selector) (allPods : list Pod)
    (replicasErr : option error) :
  let key := reqNamespacedName req in
  let filteredPods := FilterActivePods allPods in
  let m := match DeletionTimestamp podSet with
           | None => manageReplicas sched filteredPods podSet
           | Some _ => ret None
           end w2 in
  Get key w = (inl podSet, w1) ->
  parsePodSelector podSet = inl labelSelector ->
  List (nnNamespace key) labelSelector w1 = (inl allPods, w2) ->
  res m = Ret replicasErr ->
  exists newStatus w3 cm,
    calculateStatus (DeepCopy podSet) filteredPods replicasErr (world m)
    = {| res := Ret newStatus; world := w3; events := [] |} /\
    let c := updatePodSetStatus (DeepCopy podSet) newStatus w3 in
    res c = Ret cm /\
    Reconcile sched req w
    = {| res := Ret ({| Requeue := match failure cm with
                                   | Some _ => true
                                   | None => false
                                   end |}, None);
         world := world c;
         events := EvLogV "reconciling pod set operator"
                   :: EvGet key (inl podSet)
                   :: EvList (nnNamespace key) labelSelector (inl allPods)
                   :: events m ++ events c |}.
Proof.
  intros key filteredPods m HGet Hparse HList Hm.
  destruct (calculateStatus_total (DeepCopy podSet) filteredPods replicasErr
              (world m)) as (counts & w3 & Hcalc).
  set (newStatus := {| Replicas := wrap32 (len filteredPods);
                       ReadyReplicas := wrap32 (fst counts);
                       AvailableReplicas := wrap32 (snd counts);
                       ObservedGeneration :=
                         ObservedGeneration (Status (DeepCopy podSet)) |})
    in *.
  destruct (updatePodSetStatus_total (DeepCopy podSet) newStatus w3)
    as (cm & Hcm & _).
  exists newStatus, w3, cm. split; [exact Hcalc|]. split; [exact Hcm|].
  unfold Reconcile. fold key. rewrite bind_emit.
  rewrite (bind_r_Get key _ w w1 (inl podSet) HGet). cbv beta iota.
  rewrite Hparse.
  rewrite (bind_r_List _ _ _ w1 w2 (inl allPods) HList). cbv beta iota zeta.
  fold filteredPods.
  match goal with |- context [bind ?a ?f w2] =>
    rewrite (bind_res_Ret a f w2 replicasErr Hm)
  end.
  fold m. cbn [res world events].
  match goal with
  | |- context [bind (calculateStatus ?a ?b ?c) ?f (world m)] =>
      assert (HT : bind (calculateStatus a b c) f (world m)
                   = {| res := Ret ({| Requeue := match failure cm with
                                                  | Some _ => true
                                                  | None => false
                                                  end |}, None);
                        world := world (updatePodSetStatus (DeepCopy podSet)
                                          newStatus w3);
                        events := events (updatePodSetStatus (DeepCopy podSet)
                                            newStatus w3) |})
  end.
  { unfold bind at 1. rewrite Hcalc. cbn [res world events app].
    match goal with |- context [bind ?a ?f w3] =>
      rewrite (bind_res_Ret a f w3 cm Hcm)
    end.
    destruct (failure cm); cbn [res world events ret];
      rewrite app_nil_r; reflexivity. }
  rewrite HT. reflexivity.
Qed.

(** C5. In a pass whose workload carries a deletion timestamp, no create and
    no delete is issued, the status is calculated from the active instances
    that were listed and [updatePodSetStatus] is run on it; the commit decides
    the result of the pass. *)
Theorem Reconcile_deleting (sched : list nat) (req : Request) (w w1 w2 : W)
    (podSet : PodSet) (t : Time) (labelSelector : Selector)
    (allPods : list Pod) :
  let key := reqNamespacedName req in
  let filteredPods := FilterActivePods allPods in
  Get key w = (inl podSet, w1) ->
  DeletionTimestamp podSet = Some t ->
  parsePodSelector podSet = inl labelSelector ->
  List (nnNamespace key) labelSelector w1 = (inl allPods, w2) ->
  let o := Reconcile sched req w in
  existsb isCreate (events o) = false /\
  existsb isDelete (events o) = false /\
  exists newStatus w3 cm,
    calculateStatus (DeepCopy podSet) filteredPods None w2
    = {| res := Ret newStatus; world := w3; events := [] |} /\
    Replicas newStatus = wrap32 (len filteredPods) /\
    let c := updatePodSetStatus (DeepCopy podSet) newStatus w3 in
    res c = Ret cm /\
    events o = EvLogV "reconciling pod set operator"
               :: EvGet key (inl podSet)
               :: EvList (nnNamespace key) labelSelector (inl allPods)
               :: events c /\
    world o = world c /\
    res o = Ret ({| Requeue := match failure cm with
                               | Some _ => true
                               | None => false
                               end |}, None).
Proof.
  intros key filteredPods HGet Hdel Hparse HList o.
  pose proof (Reconcile_listed sched req w w1 w2 podSet labelSelector allPods
                None) as H.
  cbv zeta in H. rewrite Hdel in H.
  destruct (H HGet Hparse HList eq_refl)
    as (newStatus & w3 & cm & Hcalc & Hcm & Ho).
  cbn [world events ret app] in Hcalc, Ho.
  fold key filteredPods in Hcalc, Ho.
  destruct (updatePodSetStatus_total (DeepCopy podSet) newStatus w3)
    as (cm' & _ & Hnc & Hnd).
  subst o. rewrite Ho. cbn [res world events existsb isCreate isDelete orb].
  split; [exact Hnc|]. split; [exact Hnd|].
  exists newStatus, w3, cm. split; [exact Hcalc|]. split.
  - unfold calculateStatus, bind in Hcalc.
    destruct (countReplicas filteredPods 0 0 w2) as [[c|msg] wc ec];
      cbn in Hcalc; [|discriminate].
    injection Hcalc as <- _ _. reflexivity.
  - split; [exact Hcm|]. repeat split.
Qed.

(** C6. [Reconcile] maps outcomes to retry decisions as follows. A fetch
    that fails with not-found ends the pass with no requeue; any other fetch
    error, a selector that does not parse and a list error each end the pass
    at once with a requeue; an error of replica management does not end the
    pass: the status is calculated, the commit is run, and the commit alone
    decides, a failed commit asking for a requeue and a successful one ending
    the pass with no requeue. The error returned is always nil. *)
Theorem Reconcile_outcomes (sched : list nat) (req : Request) (w : W) :
  let key := reqNamespacedName req in
  let o := Reconcile sched req w in
  (forall err w1,
     Get key w = (inr err, w1) -> IsNotFound err = true ->
     o = {| res := Ret ({| Requeue := false |}, None); world := w1;
            events := [EvLogV "reconciling pod set operator";
                       EvGet key (inr err)] |}) /\
  (forall err w1,
     Get key w = (inr err, w1) -> IsNotFound err = false ->
     o = {| res := Ret ({| Requeue := true |}, None); world := w1;
            events := [EvLogV "reconciling pod set operator";
                       EvGet key (inr err);
                       EvLogError "error requesting pod set operator" err] |}) /\
  (forall podSet w1 err,
     Get key w = (inl podSet, w1) -> parsePodSelector podSet = inr err ->
     o = {| res := Ret ({| Requeue := true |}, None); world := w1;
            events := [EvLogV "reconciling pod set operator";
                       EvGet key (inl podSet)] |}) /\
  (forall podSet w1 labelSelector err w2,
     Get key w = (inl podSet, w1) ->
     parsePodSelector podSet = inl labelSelector ->
     List (nnNamespace key) labelSelector w1 = (inr err, w2) ->
     o = {| res := Ret ({| Requeue := true |}, None); world := w2;
            events := [EvLogV "reconciling pod set operator";
                       EvGet key (inl podSet);
                       EvList (nnNamespace key) labelSelector (inr err);
                       EvLogError "error list pods" err] |}) /\
  (forall podSet w1 labelSelector allPods w2 replicasErr,
     Get key w = (inl podSet, w1) ->
     parsePodSelector podSet = inl labelSelector ->
     List (nnNamespace key) labelSelector w1 = (inl allPods, w2) ->
     let filteredPods := FilterActivePods allPods in
     let m := match DeletionTimestamp podSet with
              | None => manageReplicas sched filteredPods podSet
              | Some _ => ret None
              end w2 in
     res m = Ret replicasErr ->
     exists newStatus w3 cm,
       calculateStatus (DeepCopy podSet) filteredPods replicasErr (world m)
       = {| res := Ret newStatus; world := w3; events := [] |} /\
       let c := updatePodSetStatus (DeepCopy podSet) newStatus w3 in
       res c = Ret cm /\
       events o = EvLogV "reconciling pod set operator"
                  :: EvGet key (inl podSet)
                  :: EvList (nnNamespace key) labelSelector (inl allPods)
                  :: events m ++ events c /\
       world o = world c /\
       (failure cm <> None -> res o = Ret ({| Requeue := true |}, None)) /\
       (failure cm = None -> res o = Ret ({| Requeue := false |}, None))).
Proof.
  intros key o. subst o. repeat split.
  - intros err w1 HGet Hnf. unfold Reconcile. fold key. rewrite bind_emit.
    rewrite (bind_r_Get key _ w w1 (inr err) HGet). cbv beta iota.
    rewrite Hnf. reflexivity.
  - intros err w1 HGet Hnf. unfold Reconcile. fold key. rewrite bind_emit.
    rewrite (bind_r_Get key _ w w1 (inr err) HGet). cbv beta iota.
    rewrite Hnf. reflexivity.
  - intros podSet w1 err HGet Hparse. unfold Reconcile. fold key. rewrite bind_emit.
    rewrite (bind_r_Get key _ w w1 (inl podSet) HGet). cbv beta iota.
    rewrite Hparse. reflexivity.
  - intros podSet w1 labelSelector err w2 HGet Hparse HList.
    unfold Reconcile. fold key. rewrite bind_emit.
    rewrite (bind_r_Get key _ w w1 (inl podSet) HGet). cbv beta iota.
    rewrite Hparse.
    rewrite (bind_r_List _ _ _ w1 w2 (inr err) HList). reflexivity.
  - intros podSet w1 labelSelector allPods w2 replicasErr HGet Hparse HList
           filteredPods m Hm.
    destruct (Reconcile_listed sched req w w1 w2 podSet labelSelector allPods
                replicasErr HGet Hparse HList Hm)
      as (newStatus & w3 & cm & Hcalc & Hcm & Ho).
    exists newStatus, w3, cm. split; [exact Hcalc|]. split; [exact Hcm|].
    fold key in Ho. rewrite Ho. cbn [res world events].
    split; [reflexivity|]. split; [reflexivity|].
    split; intros Hf.
    + destruct (failure cm); [reflexivity|congruence].
    + rewrite Hf. reflexivity.
Qed.

End Properties.

(** ** Runs on the cluster in memory *)

Lemma calculateStatus_counts_witness :
  len (Fake.slice [Fake.pod "a" (Some 5); Fake.pod "b" None;
                   Fake.pod "c" (Some 200)])
  <= MaxInt32 /\
  exists newStatus w',
    calculateStatus (Fake.podSet 3 None 1 Fake.noStatus)
      (Fake.slice [Fake.pod "a" (Some 5); Fake.pod "b" None;
                   Fake.pod "c" (Some 200)])
      None (Fake.cluster [] [] 0 [])
    = {| res := Ret newStatus; world := w'; events := [] |} /\
    Replicas newStatus = 3 /\
    ReadyReplicas newStatus = 2 /\
    AvailableReplicas newStatus = 2.
Proof.
  assert (H : len (Fake.slice [Fake.pod "a" (Some 5); Fake.pod "b" None;
                               Fake.pod "c" (Some 200)]) <= MaxInt32)
    by (vm_compute; discriminate).
  split; [exact H|].
  destruct (@calculateStatus_counts Fake.Cluster Fake.client
              (Fake.podSet 3 None 1 Fake.noStatus) _ None
              (Fake.cluster [] [] 0 []) H)
    as (newStatus & w' & Hrun & Hrep & Hready & Havail & _).
  exists newStatus, w'.
  split; [exact Hrun|]. split; [exact Hrep|]. split; [exact Hready|].
  exact (Havail 0).
Defined.

Lemma Fake_StoreEchoes : StoreEchoes Fake.client.
Proof.
  intros podSet podSet' w w' H. cbn in H. unfold Fake.apiStatusUpdate in H.
  destruct (Fake.conflicts w); [discriminate|].
  injection H as <- _. split; reflexivity.
Qed.

(** Generation 2 was never observed and one pod is up: the commit writes
    once. *)
Lemma updatePodSetStatus_commit_witness :
  let podSet := Fake.podSet 3 None 2 Fake.noStatus in
  let newStatus := {| Replicas := 1; ReadyReplicas := 1;
                      AvailableReplicas := 1; ObservedGeneration := 0 |} in
  ObservedGeneration newStatus = ObservedGeneration (Status podSet) /\
  StoreEchoes Fake.client /\
  count isStatusWrite
    (events (updatePodSetStatus podSet newStatus
               (Fake.cluster [podSet] [] 0 []))) = 1.
Proof.
  intros podSet newStatus.
  assert (H1 : ObservedGeneration newStatus
               = ObservedGeneration (Status podSet)) by reflexivity.
  split; [exact H1|]. split; [exact Fake_StoreEchoes|].
  destruct (@updatePodSetStatus_commit Fake.Cluster Fake.client podSet
              newStatus (Fake.cluster [podSet] [] 0 []) H1 Fake_StoreEchoes)
    as (_ & _ & Hwrite & _).
  destruct Hwrite as (_ & _ & _ & _ & _ & Hone & _).
  - intros (Hrep & _). vm_compute in Hrep. discriminate.
  - exact Hone.
Defined.

(** Desired 1, active 3 of which the second is already gone from the
    cluster: its delete fails with not-found and the batch reports nothing. *)
Lemma delete_batch_not_found_is_success_witness :
  let filteredPods :=
    Fake.slice [Fake.pod "a" None; Fake.pod "b" None; Fake.pod "c" None] in
  let podSet := Fake.podSet 1 None 1 Fake.noStatus in
  let o := manageReplicas 500 Fake.GetPodFromTemplate [1%nat; 0%nat]
             filteredPods podSet
             (Fake.cluster [] [Fake.pod "a" None; Fake.pod "c" None] 0 []) in
  SpecReplicas (Spec podSet) = Some 1 /\
  0 <= 1 <= MaxInt32 /\
  1 < len filteredPods < 2 ^ 62 /\
  0 <= 500 /\
  In (EvDelete "default" "b" (Some Fake.notFound)) (events o) /\
  res o = Ret None.
Proof.
  intros filteredPods podSet o.
  assert (H1 : SpecReplicas (Spec podSet) = Some 1) by reflexivity.
  assert (H2 : 0 <= 1 <= MaxInt32) by (vm_compute; split; discriminate).
  assert (H3 : 1 < len filteredPods < 2 ^ 62)
    by (vm_compute; split; reflexivity).
  assert (H4 : 0 <= 500) by discriminate.
  split; [exact H1|]. split; [exact H2|]. split; [exact H3|].
  split; [exact H4|].
  split; [vm_compute; right; left; reflexivity|].
  destruct (@delete_batch_not_found_is_success Fake.Cluster Fake.client 500
              Fake.GetPodFromTemplate [1%nat; 0%nat] filteredPods podSet 1
              (Fake.cluster [] [Fake.pod "a" None; Fake.pod "c" None] 0 [])
              H1 H2 H3 H4) as (r & Hr & Hnone & _).
  fold o in Hr, Hnone. rewrite Hr. f_equal. apply Hnone.
  vm_compute. reflexivity.
Defined.

(** Desired 3, active 7, burst ceiling 4: the pass deletes the first 4. *)
Lemma scale_down_in_bounds_witness :
  let filteredPods :=
    Fake.slice
      [Fake.pod "a" None; Fake.pod "b" None; Fake.pod "c" None;
       Fake.pod "d" None; Fake.pod "e" None; Fake.pod "f" None;
       Fake.pod "g" None] in
  let podSet := Fake.podSet 3 None 1 Fake.noStatus in
  SpecReplicas (Spec podSet) = Some 3 /\
  0 <= 3 <= MaxInt32 /\
  len filteredPods < 2 ^ 62 /\
  0 < 4 /\
  len filteredPods - 3 > 0 /\
  0 < clamp 4 (wrap64 (len filteredPods - 3)) <= len filteredPods /\
  clamp 4 (wrap64 (len filteredPods - 3)) = 4.
Proof.
  intros filteredPods podSet.
  assert (H1 : SpecReplicas (Spec podSet) = Some 3) by reflexivity.
  assert (H2 : 0 <= 3 <= MaxInt32) by (vm_compute; split; discriminate).
  assert (H3 : len filteredPods < 2 ^ 62) by (vm_compute; reflexivity).
  assert (H4 : 0 < 4) by reflexivity.
  assert (H5 : len filteredPods - 3 > 0) by (vm_compute; reflexivity).
  split; [exact H1|]. split; [exact H2|]. split; [exact H3|].
  split; [exact H4|]. split; [exact H5|].
  destruct (@scale_down_in_bounds Fake.Cluster Fake.client 4
              Fake.GetPodFromTemplate [] filteredPods podSet 3
              (Fake.cluster [] filteredPods 0 []) H1 H2 H3 H4 H5)
    as (Hb & _).
  split; [exact Hb|reflexivity].
Defined.

(** C10, as stated, fails for a negative desired count: with no active pod
    (a nil slice) and [Replicas] = -1 the scale-down branch is taken with a
    delete count of 1, beyond the length 0 of the list, and the slice
    expression panics. *)
Lemma scale_down_negative_replicas_out_of_bounds :
  let filteredPods := {| items := []; spare := [] |} in
  let podSet := Fake.podSet (-1) None 1 Fake.noStatus in
  let diff := clamp 500 (wrap64 (len filteredPods - (-1))) in
  let o := manageReplicas 500 Fake.GetPodFromTemplate [] filteredPods podSet
             (Fake.cluster [podSet] [] 0 []) in
  (wrap64 (len filteredPods - (-1)) >? 0) = true /\
  hd_error (events o) = Some (EvLogInfo "Too many replicas" (-1) diff) /\
  ~ (0 < diff <= len filteredPods) /\
  getPodsToDelete filteredPods diff = None /\
  res o = Panic "slice bounds out of range".
Proof.
  cbv zeta. split; [reflexivity|]. split; [reflexivity|].
  split; [|split; reflexivity].
  vm_compute. intros [_ H]. apply H. reflexivity.
Qed.

(** C1 at a failing input: desired 2, active 0, and a cluster that refuses
    every create. Both invocations run and both fail, and neither
    [createPodsInBatch] nor [manageReplicas] reports an error. *)
Theorem create_batch_failures_dropped :
  let podSet := Fake.podSet 2 None 1 Fake.noStatus in
  let w := Fake.cluster [podSet] [] 0 [] in
  let fn := createPod Fake.GetPodFromTemplate (psNamespace podSet)
              (Template (Spec podSet)) podSet (NewControllerRef podSet) in
  let batch := createPodsInBatch [] 2 1 fn w in
  let o := manageReplicas 500 Fake.GetPodFromTemplate [] (Fake.slice [])
             podSet w in
  res (fn w) = Ret (Some Fake.forbidden) /\
  count isCreateFailure (events batch) = 2 /\
  res batch = Ret (0, None) /\
  hd_error (events o) = Some (EvLogInfo "Too few replicas" 2 2) /\
  count isCreate (events o) = 2 /\
  count isCreateFailure (events o) = 2 /\
  res o = Ret None.
Proof. cbv zeta. repeat split. Qed.

(** The sibling path at the like input: desired 0, active 2, and a cluster
    that refuses to delete either pod. The delete batch does report. *)
Example delete_batch_failures_reported :
  let filteredPods := Fake.slice [Fake.pod "a" None; Fake.pod "b" None] in
  let podSet := Fake.podSet 0 None 1 Fake.noStatus in
  let o := manageReplicas 500 Fake.GetPodFromTemplate [] filteredPods podSet
             (Fake.cluster [podSet] filteredPods 0 ["a"; "b"]) in
  count isHardDeleteFailure (events o) = 2 /\
  res o = Ret (Some (errorString "failed to delete pod: internal error")).
Proof. cbv zeta. repeat split. Qed.

(** A workload marked for deletion with 2 active pods and 5 desired: nothing
    is created or deleted, and the status is committed with 2 replicas. *)
Lemma Reconcile_deleting_witness :
  let podSet := Fake.podSet 5 (Some 50) 1 Fake.noStatus in
  let allPods := [Fake.pod "a" (Some 5); Fake.pod "b" (Some 6)] in
  let w := Fake.cluster [podSet] allPods 5 [] in
  let key := reqNamespacedName Fake.request in
  let o := Reconcile 500 Fake.parsePodSelector Fake.room Fake.GetPodFromTemplate []
             Fake.request w in
  Get key w = (inl podSet, w) /\
  DeletionTimestamp podSet = Some 50 /\
  Fake.parsePodSelector podSet = inl Fake.web /\
  List (nnNamespace key) Fake.web w = (inl allPods, w) /\
  existsb isCreate (events o) = false /\
  existsb isDelete (events o) = false /\
  count isStatusWrite (events o) = 1 /\
  map (fun ps => Replicas (Status ps)) (Fake.podsets (world o)) = [2].
Proof.
  intros podSet allPods w key o.
  assert (H1 : Get key w = (inl podSet, w)) by reflexivity.
  assert (H2 : DeletionTimestamp podSet = Some 50) by reflexivity.
  assert (H3 : Fake.parsePodSelector podSet = inl Fake.web) by reflexivity.
  assert (H4 : List (nnNamespace key) Fake.web w = (inl allPods, w))
    by reflexivity.
  split; [exact H1|]. split; [exact H2|]. split; [exact H3|].
  split; [exact H4|].
  destruct (@Reconcile_deleting Fake.Cluster Fake.client 500
              Fake.parsePodSelector Fake.room Fake.GetPodFromTemplate [] Fake.request
              w w w podSet 50 Fake.web allPods H1 H2 H3 H4)
    as (Hcreate & Hdelete & _).
  split; [exact Hcreate|]. split; [exact Hdelete|].
  split; reflexivity.
Defined.

(** Desired 0 and one active pod that the cluster refuses to delete:
    replica management fails, the status is committed all the same and the
    pass ends with no requeue. *)
Lemma Reconcile_outcomes_witness :
  let podSet := Fake.podSet 0 None 1 Fake.noStatus in
  let allPods := [Fake.pod "a" (Some 5)] in
  let w := Fake.cluster [podSet] allPods 0 ["a"] in
  let o := Reconcile 500 Fake.parsePodSelector Fake.room Fake.GetPodFromTemplate []
             Fake.request w in
  res (manageReplicas 500 Fake.GetPodFromTemplate []
         (FilterActivePods Fake.room allPods) podSet w)
  = Ret (Some (errorString "failed to delete pod: internal error")) /\
  count isStatusWrite (events o) = 1 /\
  res o = Ret ({| Requeue := false |}, None).
Proof.
  intros podSet allPods w o.
  split; [reflexivity|]. split; [reflexivity|].
  destruct (@Reconcile_outcomes Fake.Cluster Fake.client 500
              Fake.parsePodSelector Fake.room Fake.GetPodFromTemplate [] Fake.request w)
    as (_ & _ & _ & _ & Hlisted).
  destruct (Hlisted podSet w Fake.web allPods w
              (Some (errorString "failed to delete pod: internal error"))
              eq_refl eq_refl eq_refl eq_refl)
    as (newStatus & w3 & cm & Hcalc & Hcm & _ & _ & _ & Hok).
  apply Hok.
  vm_compute in Hcalc. injection Hcalc as <- <-.
  vm_compute in Hcm. injection Hcm as <-. reflexivity.
Defined.

(** ** Further properties of the reconciler *)

Section Batches.

Context {W : Type} {client : Client W}.

(** *** What the goroutines of a batch leave behind *)

Lemma Forall2_update {A B : Type} (R : A -> B -> Prop) (a : A) :
  (forall b, R a b) ->
  forall (l : list A) (l' : list B),
    Forall2 R l l' -> forall i, Forall2 R (update i a l) l'.
Proof.
  intros Ha l l' H. induction H as [|x y l l' Hxy H IH]; intros [|i]; cbn.
  - constructor.
  - constructor.
  - constructor; [apply Ha|exact H].
  - constructor; [exact Hxy|apply IH].
Qed.

Lemma Forall2_nth_error_l {A B : Type} (R : A -> B -> Prop) :
  forall (l : list A) (l' : list B),
    Forall2 R l l' ->
    forall i a, nth_error l i = Some a ->
                exists b, nth_error l' i = Some b /\ R a b.
Proof.
  intros l l' H. induction H as [|x y l l' Hxy H IH]; intros [|i] a Hi;
    cbn in *; try discriminate.
  - injection Hi as <-. exists y. split; [reflexivity|exact Hxy].
  - apply IH. exact Hi.
Qed.

Section Trace.

Variables (X L : Type).
Variable f : Event -> list L.
Variable mk : X -> M W (option error).
Variable lab : X -> list L.
Hypothesis mk_emits : forall x, emits f (mk x) (lab x).

Lemma mk_calm (x : X) : calm (mk x).
Proof. intros w. destruct (mk_emits x w) as [Hr _]. exact Hr. Qed.

Lemma pending_run (xs : list X) :
  forall (gs : list (Goroutine W)) (i : nat) (body : M W (option error))
         (x : X) (g' : Goroutine W),
    nth_error gs i = Some (Spawned body) ->
    nth_error xs i = Some x ->
    rank g' <> 2%nat ->
    Permutation (pending lab gs xs)
                (lab x ++ pending lab (update i g' gs) xs).
Proof.
  induction xs as [|y xs IH]; intros [|g gs] [|i] body x g' Hg Hx Hg';
    cbn in *; try discriminate.
  - injection Hg as ->. injection Hx as ->.
    destruct g' as [b| |]; cbn in *; [congruence| |]; reflexivity.
  - specialize (IH gs i body x g' Hg Hx Hg').
    rewrite IH. rewrite !app_assoc. apply Permutation_app_tail.
    apply Permutation_app_comm.
Qed.

Lemma pending_sent (xs : list X) :
  forall (gs : list (Goroutine W)) (i : nat) (g g' : Goroutine W),
    nth_error gs i = Some g ->
    rank g <> 2%nat -> rank g' <> 2%nat ->
    pending lab (update i g' gs) xs = pending lab gs xs.
Proof.
  induction xs as [|y xs IH]; intros [|g0 gs] [|i] g g' Hg Hr Hr';
    cbn in *; try discriminate; try reflexivity.
  - injection Hg as ->.
    destruct g as [b| |], g' as [b'| |]; cbn in *; congruence.
  - f_equal. eapply IH; eauto.
Qed.

Lemma pending_exited (xs : list X) :
  forall gs : list (Goroutine W),
    Forall (fun g => rank g = 0%nat) gs -> pending lab gs xs = [].
Proof.
  induction xs as [|y xs IH]; intros [|g gs] H; cbn; try reflexivity.
  inversion H as [|g0 gs0 Hg Hgs]; subst.
  rewrite (IH gs Hgs). destruct g; cbn in *; try discriminate; reflexivity.
Qed.

Lemma pending_spawn (xs : list X) :
  pending lab (map Spawned (map mk xs)) xs = flat_map lab xs.
Proof.
  induction xs as [|x xs IH]; cbn; [reflexivity|]. now rewrite IH.
Qed.

Lemma bound_spawn (xs : list X) : bound mk (map Spawned (map mk xs)) xs.
Proof.
  unfold bound. induction xs as [|x xs IH]; cbn; constructor; auto.
Qed.

Lemma step_traced (xs : list X) (b : Batch W) (i : nat) :
  crashed b = None -> traced f mk lab xs b -> traced f mk lab xs (step b i).
Proof.
  intros Hc [Hb Hp]. unfold step. rewrite Hc.
  destruct (nth_error (goroutines b) i) as [[body|err|]|] eqn:Hnth;
    try (split; assumption).
  - destruct (Forall2_nth_error_l _ _ _ Hb i _ Hnth) as (x & Hx & ->).
    destruct (mk_emits x (bworld b)) as [[r Hr] Hev].
    rewrite Hr.
    assert (Hstep : forall g', rank g' <> 2%nat ->
              traced f mk lab xs {| goroutines := update i g' (goroutines b);
                           errCh := errCh b;
                           bworld := world (mk x (bworld b));
                           bevents := bevents b ++ events (mk x (bworld b));
                           crashed := None |}).
    { intros g' Hg'. split; cbn [goroutines bevents].
      - apply Forall2_update; [|exact Hb].
        intros y. destruct g'; cbn in *; [congruence|exact I|exact I].
      - rewrite flat_map_app, Hev, <- app_assoc.
        rewrite <- Hp. apply Permutation_app_head. symmetry.
        eapply pending_run; eauto. }
    destruct r as [e|]; apply Hstep; cbn; discriminate.
  - split; cbn [goroutines bevents].
    + apply Forall2_update; [intros y; exact I|exact Hb].
    + rewrite (pending_sent xs (goroutines b) i (Sending err) Exited Hnth);
        cbn; try discriminate. exact Hp.
Qed.

Lemma run_traced (xs : list X) (sched : list nat) :
  forall b : Batch W,
    healthy calm b -> traced f mk lab xs b -> traced f mk lab xs (run sched b).
Proof.
  induction sched as [|i s IH]; intros b Hb Ht; [exact Ht|].
  rewrite run_cons. apply IH.
  - apply (step_healthy calm (fun _ H => H)), Hb.
  - apply step_traced; [apply Hb|exact Ht].
Qed.

(** When the wait is over, what [f] sees of the events of the batch is
    what it sees of the bodies, each run once, in the order of the schedule. *)
Lemma goAndWait_trace (sched : list nat) (xs : list X) (w : W) :
  let o := goAndWait sched (map mk xs) w in
  exists ch,
    res o = Ret ch /\
    Permutation (flat_map f (events o)) (flat_map lab xs).
Proof.
  intros o.
  assert (Hall : Forall calm (map mk xs)).
  { apply Forall_forall. intros body Hin.
    apply in_map_iff in Hin as (x & <- & _). apply mk_calm. }
  destruct (wait_all_exited calm (fun _ H => H) sched (map mk xs) w Hall)
    as ([Hc _] & _ & Hrank).
  set (full := sched ++ seq 0 (List.length (map mk xs))
                     ++ seq 0 (List.length (map mk xs))) in *.
  assert (Ht : traced f mk lab xs (run full (spawn (map mk xs) w))).
  { apply run_traced.
    - apply spawn_healthy. exact Hall.
    - split; cbn.
      + apply bound_spawn.
      + rewrite pending_spawn. reflexivity. }
  destruct Ht as [_ Hp].
  rewrite pending_exited, app_nil_r in Hp.
  - subst o. unfold goAndWait. cbn [res events]. fold full. rewrite Hc.
    eexists. split; [reflexivity|exact Hp].
  - apply Forall_forall. intros g Hin.
    apply In_nth_error in Hin as [j Hj].
    specialize (Hrank j). unfold rankAt in Hrank. rewrite Hj in Hrank.
    exact Hrank.
Qed.

End Trace.

Lemma step_bodies (P : M W (option error) -> Prop) (b : Batch W) (i : nat) :
  bodiesSatisfy P (goroutines b) -> bodiesSatisfy P (goroutines (step b i)).
Proof.
  intros Hall. unfold step.
  destruct (crashed b); [exact Hall|].
  destruct (nth_error (goroutines b) i) as [[body|err|]|]; try exact Hall.
  - destruct (res (body (bworld b))) as [[e|]|msg]; cbn [goroutines];
      try exact Hall; apply Forall_update; cbn; auto.
  - cbn [goroutines]. apply Forall_update; cbn; auto.
Qed.

Lemma run_bodies (P : M W (option error) -> Prop) (sched : list nat) :
  forall b : Batch W,
    bodiesSatisfy P (goroutines b) ->
    bodiesSatisfy P (goroutines (run sched b)).
Proof.
  induction sched as [|i s IH]; intros b Hb; [exact Hb|].
  rewrite run_cons. apply IH, step_bodies, Hb.
Qed.

Lemma spawn_bodies (P : M W (option error) -> Prop)
    (bodies : list (M W (option error))) (w : W) :
  Forall P bodies -> bodiesSatisfy P (goroutines (spawn bodies w)).
Proof.
  intros Hall. cbn. unfold bodiesSatisfy.
  induction Hall; cbn; constructor; auto.
Qed.

Lemma spawned_body (P : M W (option error) -> Prop) (b : Batch W) (i : nat)
    (body : M W (option error)) :
  bodiesSatisfy P (goroutines b) ->
  nth_error (goroutines b) i = Some (Spawned body) -> P body.
Proof.
  intros Hall Hnth. unfold bodiesSatisfy in Hall.
  rewrite Forall_forall in Hall.
  apply (Hall (Spawned body)). eapply nth_error_In; eauto.
Qed.

Section Accounting.

Variable rel : Event -> error -> Prop.

Lemma justified_app_l (evs evs' : list Event) (err : error) :
  justified rel evs err -> justified rel (evs ++ evs') err.
Proof.
  intros (ev & Hin & Hrel). exists ev. split; [|exact Hrel].
  apply in_or_app. left. exact Hin.
Qed.

Lemma justified_app_r (evs evs' : list Event) (err : error) :
  justified rel evs' err -> justified rel (evs ++ evs') err.
Proof.
  intros (ev & Hin & Hrel). exists ev. split; [|exact Hrel].
  apply in_or_app. right. exact Hin.
Qed.

Lemma step_accounted (b : Batch W) (i : nat) :
  bodiesSatisfy (explains rel) (goroutines b) ->
  accounted rel b -> accounted rel (step b i).
Proof.
  intros Hb [Hch Hs]. unfold step.
  destruct (crashed b); [split; assumption|].
  destruct (nth_error (goroutines b) i) as [[body|err|]|] eqn:Hnth;
    try (split; assumption).
  - assert (Hi : (i < List.length (goroutines b))%nat)
      by (apply nth_error_Some; congruence).
    pose proof (spawned_body _ b i body Hb Hnth (bworld b)) as Hj.
    assert (Hch' : Forall (justified rel
                             (bevents b ++ events (body (bworld b))))
                     (errCh b)).
    { eapply Forall_impl; [|exact Hch].
      intros e He. apply justified_app_l. exact He. }
    destruct (res (body (bworld b))) as [[e|]|msg]; split;
      cbn [errCh goroutines bevents]; try exact Hch'; intros j e' Hje.
    + destruct (Nat.eq_dec i j) as [->|Hij].
      * rewrite nth_error_update_eq in Hje by exact Hi.
        injection Hje as <-. apply justified_app_r. apply Hj. reflexivity.
      * rewrite nth_error_update_neq in Hje by exact Hij.
        apply justified_app_l. eapply Hs. exact Hje.
    + destruct (Nat.eq_dec i j) as [->|Hij].
      * rewrite nth_error_update_eq in Hje by exact Hi. discriminate.
      * rewrite nth_error_update_neq in Hje by exact Hij.
        apply justified_app_l. eapply Hs. exact Hje.
    + apply justified_app_l. eapply Hs. exact Hje.
  - assert (Hi : (i < List.length (goroutines b))%nat)
      by (apply nth_error_Some; congruence).
    split; cbn [errCh goroutines bevents].
    + apply Forall_app. split; [exact Hch|].
      constructor; [|constructor]. eapply Hs. exact Hnth.
    + intros j e' Hje. destruct (Nat.eq_dec i j) as [->|Hij].
      * rewrite nth_error_update_eq in Hje by exact Hi. discriminate.
      * rewrite nth_error_update_neq in Hje by exact Hij.
        eapply Hs. exact Hje.
Qed.

Lemma run_accounted (sched : list nat) :
  forall b : Batch W,
    bodiesSatisfy (explains rel) (goroutines b) -> accounted rel b ->
    accounted rel (run sched b).
Proof.
  induction sched as [|i s IH]; intros b Hb Ha; [exact Ha|].
  rewrite run_cons. apply IH.
  - apply step_bodies, Hb.
  - apply step_accounted; assumption.
Qed.

(** Every error the channel holds after the wait is accounted for by an
    event of the batch. *)
Lemma goAndWait_accounted (sched : list nat)
    (bodies : list (M W (option error))) (w : W) (ch : list error) :
  Forall (explains rel) bodies ->
  let o := goAndWait sched bodies w in
  res o = Ret ch -> Forall (justified rel (events o)) ch.
Proof.
  intros Hall o Hres.
  assert (Ha : accounted rel
                 (run (sched ++ seq 0 (List.length bodies)
                         ++ seq 0 (List.length bodies)) (spawn bodies w))).
  { apply run_accounted.
    - apply spawn_bodies. exact Hall.
    - split; cbn; [constructor|].
      intros j e Hj. rewrite nth_error_map in Hj.
      destruct (nth_error bodies j); discriminate. }
  destruct Ha as [Hch _].
  subst o. unfold goAndWait in *. cbn [res events] in *.
  destruct (crashed _); [discriminate|].
  injection Hres as <-. exact Hch.
Qed.

End Accounting.

Section Capping.

Variable mark : Event -> bool.
Variable k : Z.
Hypothesis k_nonneg : 0 <= k.

Lemma count_app (evs evs' : list Event) :
  count mark (evs ++ evs') = count mark evs + count mark evs'.
Proof.
  unfold count, len. rewrite filter_app, length_app. lia.
Qed.

Lemma count_nonneg (evs : list Event) : 0 <= count mark evs.
Proof. unfold count. apply len_nonneg. Qed.

Lemma spawned_nonneg (gs : list (Goroutine W)) : 0 <= spawned gs.
Proof. unfold spawned. apply len_nonneg. Qed.

Lemma spawned_run (gs : list (Goroutine W)) :
  forall (i : nat) (body : M W (option error)) (g' : Goroutine W),
    nth_error gs i = Some (Spawned body) ->
    isSpawned g' = false ->
    spawned gs = spawned (update i g' gs) + 1.
Proof.
  unfold spawned.
  induction gs as [|g gs IH]; intros [|i] body g' Hnth Hg';
    cbn [nth_error update filter] in *; try discriminate.
  - injection Hnth as ->. cbn [isSpawned]. rewrite Hg', len_cons.
    reflexivity.
  - specialize (IH i body g' Hnth Hg').
    destruct (isSpawned g); rewrite ?len_cons; lia.
Qed.

Lemma spawned_sent (gs : list (Goroutine W)) :
  forall (i : nat) (g g' : Goroutine W),
    nth_error gs i = Some g ->
    isSpawned g = false -> isSpawned g' = false ->
    spawned (update i g' gs) = spawned gs.
Proof.
  unfold spawned.
  induction gs as [|g0 gs IH]; intros [|i] g g' Hnth Hg Hg';
    cbn [nth_error update filter] in *; try discriminate.
  - injection Hnth as ->. rewrite Hg, Hg'. reflexivity.
  - specialize (IH i g g' Hnth Hg Hg').
    destruct (isSpawned g0); rewrite ?len_cons; lia.
Qed.

Lemma step_capped (n : Z) (b : Batch W) (i : nat) :
  bodiesSatisfy (atMost mark k) (goroutines b) ->
  capped mark k n b -> capped mark k n (step b i).
Proof.
  intros Hb [Hle Hroom]. unfold step.
  destruct (crashed b) eqn:Hc; [split; [exact Hle|rewrite Hc; discriminate]|].
  specialize (Hroom eq_refl).
  destruct (nth_error (goroutines b) i) as [[body|err|]|] eqn:Hnth;
    try (split; [exact Hle|intros _; exact Hroom]).
  - pose proof (spawned_body _ b i body Hb Hnth (bworld b)) as Hk.
    pose proof (count_nonneg (events (body (bworld b)))) as H0.
    assert (Hrun : forall g', isSpawned g' = false ->
              count mark (bevents b ++ events (body (bworld b)))
              + k * spawned (update i g' (goroutines b)) <= k * n).
    { intros g' Hg'. rewrite count_app.
      rewrite (spawned_run (goroutines b) i body g' Hnth Hg') in Hroom.
      nia. }
    pose proof (spawned_nonneg (goroutines b)) as Hs.
    assert (Hone : 1 <= spawned (goroutines b)).
    { rewrite (spawned_run (goroutines b) i body Exited Hnth eq_refl).
      pose proof (spawned_nonneg (update i Exited (goroutines b))). lia. }
    destruct (res (body (bworld b))) as [[e|]|msg]; split;
      cbn [bevents goroutines crashed]; try discriminate.
    + specialize (Hrun (Sending e) eq_refl).
      pose proof (spawned_nonneg (update i (Sending e) (goroutines b))). nia.
    + intros _. apply Hrun. reflexivity.
    + specialize (Hrun Exited eq_refl).
      pose proof (spawned_nonneg (update i Exited (goroutines b))). nia.
    + intros _. apply Hrun. reflexivity.
    + rewrite count_app. nia.
  - split; cbn [bevents goroutines crashed]; [exact Hle|]. intros _.
    rewrite (spawned_sent (goroutines b) i (Sending err) Exited Hnth);
      auto.
Qed.

Lemma run_capped (n : Z) (sched : list nat) :
  forall b : Batch W,
    bodiesSatisfy (atMost mark k) (goroutines b) ->
    capped mark k n b -> capped mark k n (run sched b).
Proof.
  induction sched as [|i s IH]; intros b Hb Hc; [exact Hc|].
  rewrite run_cons. apply IH.
  - apply step_bodies, Hb.
  - apply step_capped; assumption.
Qed.

Lemma spawned_spawn (bodies : list (M W (option error))) :
  spawned (map Spawned bodies) = len bodies.
Proof.
  unfold spawned. induction bodies as [|body bodies IH]; [reflexivity|].
  cbn [map filter isSpawned]. rewrite !len_cons. lia.
Qed.

(** Whether the batch returns or a goroutine panics, it emits at most [k]
    marked events for each of its bodies. *)
Lemma goAndWait_capped (sched : list nat)
    (bodies : list (M W (option error))) (w : W) :
  Forall (atMost mark k) bodies ->
  count mark (events (goAndWait sched bodies w)) <= k * len bodies.
Proof.
  intros Hall.
  assert (Hc : capped mark k (len bodies)
                 (run (sched ++ seq 0 (List.length bodies)
                         ++ seq 0 (List.length bodies)) (spawn bodies w))).
  { apply run_capped.
    - apply spawn_bodies. exact Hall.
    - pose proof (len_nonneg bodies).
      split; cbn [bevents goroutines spawn]; [cbn; nia|]. intros _.
      rewrite spawned_spawn. cbn. lia. }
  destruct Hc as [Hle _]. exact Hle.
Qed.

End Capping.

(** *** deletePod *)

Lemma deletePod_run (namespace name : string) (w : W) :
  let pod := SetName (SetNamespace emptyPod namespace) name in
  deletePod namespace name w
  = {| res := Ret match fst (Delete pod w) with
                  | Some err =>
                      if IsNotFound err then Some err
                      else Some (Errorf "failed to delete pod: " err)
                  | None => None
                  end;
       world := snd (Delete pod w);
       events := EvDelete namespace name (fst (Delete pod w))
                 :: match fst (Delete pod w) with
                    | Some err =>
                        if IsNotFound err
                        then [EvLogV "pod has already been deleted."]
                        else []
                    | None => []
                    end |}.
Proof.
  intros pod. unfold deletePod, bind, r_Delete. fold pod.
  destruct (Delete pod w) as [[err|] w']; cbn; [|reflexivity].
  destruct (IsNotFound err); reflexivity.
Qed.

(** X1. [deletePod] makes one call to the store, the delete of the pod of
    the given namespace and name, and nothing else to the store. It returns
    nil exactly when the store does; an error it returns is not-found exactly
    when the error of the store is: a not-found error is handed on as it is,
    any other is replaced by a plain error with the text of the store's
    after "failed to delete pod: ". *)
Theorem deletePod_classifies (namespace name : string) (w : W) :
  let pod := SetName (SetNamespace emptyPod namespace) name in
  let reply := fst (Delete pod w) in
  let o := deletePod namespace name w in
  Namespace pod = namespace /\ Name pod = name /\
  world o = snd (Delete pod w) /\
  filter isStoreCall (events o) = [EvDelete namespace name reply] /\
  (res o = Ret None <-> reply = None) /\
  (forall err, reply = Some err -> IsNotFound err = true ->
               res o = Ret (Some err)) /\
  (forall err, reply = Some err -> IsNotFound err = false ->
               res o = Ret (Some (errorString
                                    ("failed to delete pod: "
                                     ++ ErrorText err)%string))) /\
  (forall err', res o = Ret (Some err') ->
                exists err, reply = Some err /\
                            IsNotFound err' = IsNotFound err).
Proof.
  intros pod reply o. subst o. rewrite deletePod_run. fold pod. fold reply.
  cbn [res world events].
  split; [reflexivity|]. split; [reflexivity|]. split; [reflexivity|].
  destruct reply as [err|] eqn:Hreply.
  - destruct (IsNotFound err) eqn:Hnf; cbn [filter isStoreCall].
    + split; [reflexivity|].
      split; [split; discriminate|].
      split; [intros e He _; injection He as <-; reflexivity|].
      split; [intros e He Hf; injection He as <-; congruence|].
      intros err' H. injection H as <-. exists err. split; [reflexivity|].
      reflexivity.
    + split; [reflexivity|].
      split; [split; discriminate|].
      split; [intros e He Ht; injection He as <-; congruence|].
      split; [intros e He _; injection He as <-; reflexivity|].
      intros err' H. injection H as <-. exists err. split; [reflexivity|].
      rewrite Hnf. reflexivity.
  - cbn [filter isStoreCall]. split; [reflexivity|].
    split; [split; reflexivity|].
    split; [discriminate|]. split; [discriminate|].
    intros err' H. discriminate.
Qed.

(** *** createPod *)

Variable BurstReplicas : Z.
Variable GetPodFromTemplate :
  PodTemplateSpec -> PodSet -> OwnerReference -> Pod + error.

Local Abbreviation createPod := (createPod GetPodFromTemplate).
Local Abbreviation scaleUp := (scaleUp GetPodFromTemplate).
Local Abbreviation manageReplicas :=
  (manageReplicas BurstReplicas GetPodFromTemplate).
Local Abbreviation toCreate := (toCreate GetPodFromTemplate).

Lemma createPod_run (namespace : string) (template : PodTemplateSpec)
    (object : PodSet) (controllerRef : OwnerReference) (pod : Pod) (w : W) :
  validateControllerRef controllerRef = None ->
  GetPodFromTemplate template object controllerRef = inl pod ->
  let sent := stamped namespace object pod in
  let reply := fst (Create sent w) in
  createPod namespace template object controllerRef w
  = {| res := Ret (replyError reply);
       world := snd (Create sent w);
       events :=
         EvCreate sent (replyError reply)
         :: match reply with
            | inl pod' =>
                [EvRecord pod' "Normal" "create pod successful"
                   "create pod successful -1"]
            | inr err =>
                if HasStatusCause err NamespaceTerminatingCause
                then [EvRecord sent "Warning" "create pod fail"
                        (ErrorText err)]
                else []
            end |}.
Proof.
  intros Hv Hg sent reply. subst reply sent.
  unfold createPod. rewrite Hv, Hg. unfold stamped, bind, r_Create.
  match goal with |- context [Create ?p w] =>
    destruct (Create p w) as [[pod'|err] w'] end; cbn; [reflexivity|].
  destruct (HasStatusCause err NamespaceTerminatingCause); reflexivity.
Qed.

Lemma createPod_rejected (namespace : string)
    (template : PodTemplateSpec) (object : PodSet)
    (controllerRef : OwnerReference) (err : error) (w : W) :
  validateControllerRef controllerRef = Some err \/
  (validateControllerRef controllerRef = None /\
   GetPodFromTemplate template object controllerRef = inr err) ->
  createPod namespace template object controllerRef w
  = {| res := Ret (Some err); world := w; events := [] |}.
Proof.
  intros [Hv|[Hv Hg]]; unfold createPod; rewrite Hv; [reflexivity|].
  rewrite Hg. reflexivity.
Qed.

(** X2. When the owner reference is not valid, or the template gives no
    pod, [createPod] returns that error without a call to the store, without
    an event for the recorder, and leaves the world as it is. *)
Theorem createPod_rejects_without_store_call (namespace : string)
    (template : PodTemplateSpec) (object : PodSet)
    (controllerRef : OwnerReference) (err : error) (w : W) :
  validateControllerRef controllerRef = Some err \/
  (validateControllerRef controllerRef = None /\
   GetPodFromTemplate template object controllerRef = inr err) ->
  createPod namespace template object controllerRef w
  = {| res := Ret (Some err); world := w; events := [] |}.
Proof. apply createPod_rejected. Qed.

(** X3. With a valid owner reference and a template that gives a pod,
    [createPod] makes one call to the store: the create of that pod put in
    the given namespace, with the labels of the template or, when the
    template has none, the match labels of the selector of the workload; name
    and owner references are those of the template's pod. It returns nil
    exactly when the store accepts. It records a Normal event on success, a
    Warning when the store refuses because the namespace is terminating, and
    nothing when the store refuses for another cause. *)
Theorem createPod_sends_stamped_pod (namespace : string)
    (template : PodTemplateSpec) (object : PodSet)
    (controllerRef : OwnerReference) (pod : Pod) (w : W) :
  validateControllerRef controllerRef = None ->
  GetPodFromTemplate template object controllerRef = inl pod ->
  let sent := stamped namespace object pod in
  let reply := fst (Create sent w) in
  let o := createPod namespace template object controllerRef w in
  filter isStoreCall (events o) = [EvCreate sent (replyError reply)] /\
  world o = snd (Create sent w) /\
  res o = Ret (replyError reply) /\
  (res o = Ret None <-> exists pod', reply = inl pod') /\
  Namespace sent = namespace /\
  Name sent = Name pod /\
  OwnerReferences sent = OwnerReferences pod /\
  (PodLabels pod <> [] -> PodLabels sent = PodLabels pod) /\
  (PodLabels pod = [] ->
   PodLabels sent = MatchLabels (SpecSelector (Spec object))) /\
  flat_map recorded (events o)
  = match reply with
    | inl _ => [("Normal", "create pod successful")]
    | inr err =>
        if HasStatusCause err NamespaceTerminatingCause
        then [("Warning", "create pod fail")]
        else []
    end.
Proof.
  intros Hv Hg sent reply o. subst o.
  rewrite (createPod_run namespace template object controllerRef pod w Hv Hg).
  fold sent. fold reply. cbn [res world events].
  assert (Hlabels : (PodLabels pod <> [] -> PodLabels sent = PodLabels pod) /\
                    (PodLabels pod = [] ->
                     PodLabels sent = MatchLabels (SpecSelector (Spec object)))).
  { subst sent. unfold stamped.
    destruct (PodLabels pod) as [|kv l] eqn:Hl.
    - split; [congruence|]. intros _. reflexivity.
    - split; [|discriminate]. intros _.
      replace (len (kv :: l) =? 0) with false.
      + cbn. exact Hl.
      + symmetry. apply Z.eqb_neq. rewrite len_cons.
        pose proof (len_nonneg l). lia. }
  assert (Hfields : Namespace sent = namespace /\ Name sent = Name pod /\
                    OwnerReferences sent = OwnerReferences pod).
  { subst sent. unfold stamped.
    destruct (len (PodLabels pod) =? 0); repeat split. }
  destruct Hlabels as [Hl1 Hl2]. destruct Hfields as (Hf1 & Hf2 & Hf3).
  destruct reply as [pod'|err] eqn:Hreply; cbn [replyError].
  - cbn. repeat split; auto; try discriminate.
    intros _. exists pod'. reflexivity.
  - destruct (HasStatusCause err NamespaceTerminatingCause); cbn;
      repeat split; auto; try discriminate;
      intros [pod' H]; discriminate.
Qed.

Lemma createPod_emits_created (namespace : string)
    (template : PodTemplateSpec) (object : PodSet)
    (controllerRef : OwnerReference) :
  emits createdPod (createPod namespace template object controllerRef)
    (toCreate namespace template object controllerRef).
Proof.
  intros w. unfold toCreate.
  destruct (validateControllerRef controllerRef) as [err|] eqn:Hv.
  - rewrite (createPod_rejected namespace template object
               controllerRef err w (or_introl Hv)).
    split; [eexists|]; reflexivity.
  - destruct (GetPodFromTemplate template object controllerRef)
      as [pod|err] eqn:Hg.
    + rewrite (createPod_run namespace template object controllerRef pod w
                 Hv Hg).
      cbn [res events]. split; [eexists; reflexivity|].
      destruct (fst (Create (stamped namespace object pod) w)) as [p|e];
        [reflexivity|].
      destruct (HasStatusCause e NamespaceTerminatingCause); reflexivity.
    + rewrite (createPod_rejected namespace template object
                 controllerRef err w (or_intror (conj Hv Hg))).
      split; [eexists|]; reflexivity.
Qed.

Lemma createPod_emits_no_delete (namespace : string)
    (template : PodTemplateSpec) (object : PodSet)
    (controllerRef : OwnerReference) :
  emits deleteTarget (createPod namespace template object controllerRef) [].
Proof.
  intros w.
  destruct (validateControllerRef controllerRef) as [err|] eqn:Hv.
  - rewrite (createPod_rejected namespace template object
               controllerRef err w (or_introl Hv)).
    split; [eexists|]; reflexivity.
  - destruct (GetPodFromTemplate template object controllerRef)
      as [pod|err] eqn:Hg.
    + rewrite (createPod_run namespace template object controllerRef pod w
                 Hv Hg).
      cbn [res events]. split; [eexists; reflexivity|].
      destruct (fst (Create (stamped namespace object pod) w)) as [p|e];
        [reflexivity|].
      destruct (HasStatusCause e NamespaceTerminatingCause); reflexivity.
    + rewrite (createPod_rejected namespace template object
                 controllerRef err w (or_intror (conj Hv Hg))).
      split; [eexists|]; reflexivity.
Qed.

(** *** The body of a delete goroutine *)

Lemma deleteBody_run (targetPod : Pod) (w : W) :
  let pod := SetName (SetNamespace emptyPod (Namespace targetPod))
               (Name targetPod) in
  deleteBody (Some targetPod) w
  = {| res := Ret match fst (Delete pod w) with
                  | Some err =>
                      if IsNotFound err then None
                      else Some (Errorf "failed to delete pod: " err)
                  | None => None
                  end;
       world := snd (Delete pod w);
       events := EvDelete (Namespace targetPod) (Name targetPod)
                   (fst (Delete pod w))
                 :: match fst (Delete pod w) with
                    | Some err =>
                        if IsNotFound err
                        then [EvLogV "pod has already been deleted."]
                        else []
                    | None => []
                    end |}.
Proof.
  intros pod. unfold deleteBody, bind. rewrite deletePod_run. fold pod.
  cbn [res world events].
  destruct (fst (Delete pod w)) as [err|]; [|reflexivity].
  destruct (IsNotFound err) eqn:Hnf; cbn; rewrite ?Hnf; reflexivity.
Qed.

Lemma deleteBody_emits_target (targetPod : Pod) :
  emits deleteTarget (deleteBody (Some targetPod))
    [(Namespace targetPod, Name targetPod)].
Proof.
  intros w. rewrite deleteBody_run. cbn [res events].
  split; [eexists; reflexivity|].
  match goal with |- context [fst (Delete ?p w)] =>
    destruct (fst (Delete p w)) as [err|] end; [|reflexivity].
  destruct (IsNotFound err); reflexivity.
Qed.

Lemma deleteBody_emits_no_create (targetPod : Pod) :
  emits createdPod (deleteBody (Some targetPod)) [].
Proof.
  intros w. rewrite deleteBody_run. cbn [res events].
  split; [eexists; reflexivity|].
  match goal with |- context [fst (Delete ?p w)] =>
    destruct (fst (Delete p w)) as [err|] end; [|reflexivity].
  destruct (IsNotFound err); reflexivity.
Qed.

Lemma deleteBody_explains (targetPod : option Pod) :
  explains deleteFailure (deleteBody targetPod).
Proof.
  destruct targetPod as [targetPod|]; intros w err Herr; [|discriminate].
  rewrite deleteBody_run in Herr |- *. cbn [res events] in *.
  match type of Herr with context [fst (Delete ?p w)] =>
    destruct (fst (Delete p w)) as [err0|] end; [|discriminate].
  destruct (IsNotFound err0) eqn:Hnf; [discriminate|].
  injection Herr as <-.
  eexists. split; [left; reflexivity|].
  exists (Namespace targetPod), (Name targetPod), err0. repeat split.
  exact Hnf.
Qed.

Lemma deleteBody_deletes_at_most_once (targetPod : option Pod) :
  atMost isDelete 1 (deleteBody targetPod).
Proof.
  destruct targetPod as [targetPod|]; intros w; [|cbn; lia].
  rewrite deleteBody_run. cbn [events].
  match goal with |- context [fst (Delete ?p w)] =>
    destruct (fst (Delete p w)) as [err0|] end; [|cbn; lia].
  destruct (IsNotFound err0); cbn; lia.
Qed.

Lemma deleteBody_never_creates (targetPod : option Pod) :
  atMost isCreate 0 (deleteBody targetPod).
Proof.
  destruct targetPod as [targetPod|]; intros w; [|cbn; lia].
  rewrite deleteBody_run. cbn [events].
  match goal with |- context [fst (Delete ?p w)] =>
    destruct (fst (Delete p w)) as [err0|] end; [|cbn; lia].
  destruct (IsNotFound err0); cbn; lia.
Qed.

(** *** What the batches of manageReplicas do *)

Lemma flat_map_repeat_unit {L : Type} (l : list L) (n : nat) :
  flat_map (fun _ : unit => l) (repeat tt n) = List.concat (repeat l n).
Proof. induction n as [|n IH]; cbn; [reflexivity|]. now rewrite IH. Qed.

Lemma len_concat_repeat {L : Type} (l : list L) (n : nat) :
  len (List.concat (repeat l n)) = Z.of_nat n * len l.
Proof.
  unfold len. induction n as [|n IH]; [reflexivity|].
  cbn [repeat List.concat]. rewrite length_app. lia.
Qed.

Lemma flat_map_single {A L : Type} (g : A -> L) (l : list A) :
  flat_map (fun a => [g a]) l = map g l.
Proof. induction l as [|a l IH]; cbn; [reflexivity|]. now rewrite IH. Qed.

Lemma count_isCreate (evs : list Event) :
  count isCreate evs = len (flat_map createdPod evs).
Proof.
  unfold count, len. induction evs as [|ev evs IH]; [reflexivity|].
  destruct ev; cbn in *; lia.
Qed.

Lemma count_isDelete (evs : list Event) :
  count isDelete evs = len (flat_map deleteTarget evs).
Proof.
  unfold count, len. induction evs as [|ev evs IH]; [reflexivity|].
  destruct ev; cbn in *; lia.
Qed.

Lemma getPodsToDelete_Some (filteredPods : PodSlice)
    (podToDelete : list (option Pod)) (diff : Z) :
  getPodsToDelete filteredPods diff = Some podToDelete ->
  0 <= diff <= cap filteredPods /\
  podToDelete = firstn (Z.to_nat diff) (backing filteredPods) /\
  len podToDelete = diff.
Proof.
  unfold getPodsToDelete.
  destruct (Z.leb_spec 0 diff); [|discriminate].
  destruct (Z.leb_spec diff (cap filteredPods)); [|discriminate].
  cbn. intros Hs. injection Hs as <-. split; [lia|]. split; [reflexivity|].
  unfold cap, backing, len in *.
  rewrite firstn_length_le; [lia|]. rewrite length_app, length_map. lia.
Qed.

Lemma createPodsInBatch_run (sched : list nat) (count initialBatchSize : Z)
    (fn : M W (option error)) (w : W) (ch : list error) :
  0 <= count ->
  let b := goAndWait sched (repeat fn (Z.to_nat count)) w in
  res b = Ret ch ->
  createPodsInBatch sched count initialBatchSize fn w
  = {| res := Ret (0, None); world := world b; events := events b |}.
Proof.
  intros Hcount b Hb. unfold createPodsInBatch.
  destruct (Z.ltb_spec count 0); [lia|].
  rewrite (bind_res_Ret _ _ _ ch Hb). cbn. rewrite app_nil_r. reflexivity.
Qed.

(** X4. [createPodsInBatch] with a count that is not negative runs [fn]
    exactly [count] times before it returns, under every schedule of its
    goroutines: for a [fn] that never panics and lets an observer of events
    see the same list at each run, what the observer sees of the batch is a
    permutation of [count] copies of that list. It returns 0 and nil. *)
Theorem createPodsInBatch_runs_all {L : Type} (f : Event -> list L)
    (sched : list nat) (count initialBatchSize : Z) (fn : M W (option error))
    (l : list L) (w : W) :
  emits f fn l ->
  0 <= count ->
  let o := createPodsInBatch sched count initialBatchSize fn w in
  res o = Ret (0, None) /\
  Permutation (flat_map f (events o)) (List.concat (repeat l (Z.to_nat count))) /\
  len (flat_map f (events o)) = count * len l.
Proof.
  intros Hfn Hcount o.
  destruct (goAndWait_trace unit L f (fun _ => fn) (fun _ => l)
              (fun _ => Hfn) sched (repeat tt (Z.to_nat count)) w)
    as (ch & Hch & Hperm).
  rewrite map_repeat in Hch, Hperm. rewrite flat_map_repeat_unit in Hperm.
  subst o.
  rewrite (createPodsInBatch_run sched count initialBatchSize fn w ch
             Hcount Hch).
  cbn [res events]. split; [reflexivity|]. split; [exact Hperm|].
  unfold len at 1. rewrite (Permutation_length Hperm).
  fold (len (List.concat (repeat l (Z.to_nat count)))).
  rewrite len_concat_repeat, Z2Nat.id by lia. reflexivity.
Qed.

Lemma scaleUp_run {L : Type} (f : Event -> list L) (sched : list nat)
    (podSet : PodSet) (replicas diff : Z) (l : list L) (w : W) :
  emits f (createPod (psNamespace podSet) (Template (Spec podSet)) podSet
             (NewControllerRef podSet)) l ->
  0 <= diff ->
  let o := scaleUp sched podSet replicas diff w in
  res o = Ret None /\
  Permutation
    (flat_map f (events o))
    (f (EvLogInfo "Too few replicas" replicas diff)
     ++ List.concat (repeat l (Z.to_nat diff))).
Proof.
  intros Hfn Hdiff o. subst o. unfold scaleUp. rewrite bind_emit.
  destruct (goAndWait_trace unit L f
              (fun _ => createPod (psNamespace podSet)
                          (Template (Spec podSet)) podSet
                          (NewControllerRef podSet))
              (fun _ => l) (fun _ => Hfn) sched
              (repeat tt (Z.to_nat diff)) w) as (ch & Hch & Hperm).
  rewrite map_repeat in Hch, Hperm. rewrite flat_map_repeat_unit in Hperm.
  pose proof (createPodsInBatch_run sched diff 1 _ w ch Hdiff Hch) as Hb.
  match goal with |- context [bind ?m ?k w] =>
    rewrite (bind_res_Ret m k w (0, None)) by (rewrite Hb; reflexivity)
  end.
  rewrite Hb. cbn [res world events snd ret flat_map].
  rewrite app_nil_r. split; [reflexivity|].
  apply Permutation_app_head. exact Hperm.
Qed.

Lemma scaleUp_panic (sched : list nat) (podSet : PodSet) (replicas diff : Z)
    (w : W) :
  diff < 0 ->
  scaleUp sched podSet replicas diff w
  = {| res := Panic "makechan: size out of range"; world := w;
       events := [EvLogInfo "Too few replicas" replicas diff] |}.
Proof.
  intros Hdiff. unfold scaleUp. rewrite bind_emit.
  unfold createPodsInBatch. destruct (Z.ltb_spec diff 0); [|lia].
  reflexivity.
Qed.

Lemma scaleDown_run (sched : list nat) (filteredPods : PodSlice) (podToDelete : list (option Pod))
    (replicas diff : Z) (w : W) (ch : list error) :
  getPodsToDelete filteredPods diff = Some podToDelete ->
  let b := goAndWait sched (map deleteBody podToDelete) w in
  res b = Ret ch ->
  scaleDown sched filteredPods replicas diff w
  = {| res := Ret (hd_error ch); world := world b;
       events := EvLogInfo "Too many replicas" replicas diff :: events b |}.
Proof.
  intros Hget b Hb. unfold scaleDown. rewrite bind_emit.
  rewrite Hget. cbn [orPanic]. rewrite bind_ret.
  rewrite (bind_res_Ret _ _ _ ch Hb). fold b.
  destruct ch; cbn; rewrite app_nil_r; reflexivity.
Qed.

Lemma scaleDown_events (sched : list nat) (filteredPods : PodSlice)
    (podToDelete : list (option Pod)) (replicas diff : Z) (w : W) :
  getPodsToDelete filteredPods diff = Some podToDelete ->
  let b := goAndWait sched (map deleteBody podToDelete) w in
  events (scaleDown sched filteredPods replicas diff w)
  = EvLogInfo "Too many replicas" replicas diff :: events b /\
  (forall msg, res b = Panic msg ->
               res (scaleDown sched filteredPods replicas diff w) = Panic msg).
Proof.
  intros Hget b. unfold scaleDown. rewrite bind_emit.
  rewrite Hget. cbn [orPanic]. rewrite bind_ret. fold b.
  destruct (res b) as [ch|msg] eqn:Hb.
  - rewrite (bind_res_Ret _ _ _ ch Hb). cbn [res events].
    split; [|discriminate].
    destruct ch; cbn; rewrite app_nil_r; reflexivity.
  - rewrite (bind_res_Panic _ _ _ msg Hb). cbn [res events].
    split; [reflexivity|]. intros msg' H. injection H as <-. reflexivity.
Qed.

Lemma scaleDown_panic (sched : list nat) (filteredPods : PodSlice)
    (replicas diff : Z) (w : W) :
  getPodsToDelete filteredPods diff = None ->
  scaleDown sched filteredPods replicas diff w
  = {| res := Panic "slice bounds out of range"; world := w;
       events := [EvLogInfo "Too many replicas" replicas diff] |}.
Proof.
  intros Hget. unfold scaleDown. rewrite bind_emit. rewrite Hget.
  reflexivity.
Qed.

(** The shape of every run of [manageReplicas]: a nil pointer panic, one
    of the two branches with a count that the burst ceiling bounds, or
    nothing. *)
Lemma manageReplicas_branches (sched : list nat) (filteredPods : PodSlice)
    (podSet : PodSet) (w : W) :
  let o := manageReplicas sched filteredPods podSet w in
  (SpecReplicas (Spec podSet) = None /\
   o = {| res := Panic "nil pointer dereference"; world := w;
          events := [] |}) \/
  (exists D diff,
     SpecReplicas (Spec podSet) = Some D /\ diff <= BurstReplicas /\
     (o = scaleUp sched podSet D diff w \/
      o = scaleDown sched filteredPods D diff w)) \/
  o = ret None w.
Proof.
  intros o. subst o. unfold manageReplicas.
  destruct (SpecReplicas (Spec podSet)) as [D|]; cbn [orPanic].
  - rewrite bind_ret. right.
    destruct (wrap64 (len filteredPods - D) <? 0).
    + left. eexists D, _. split; [reflexivity|]. split; [|left; reflexivity].
      unfold clamp. match goal with |- context [?x >? BurstReplicas] =>
        destruct (Z.gtb_spec x BurstReplicas) end; lia.
    + destruct (wrap64 (len filteredPods - D) >? 0).
      * left. eexists D, _. split; [reflexivity|].
        split; [|right; reflexivity].
        unfold clamp. match goal with |- context [?x >? BurstReplicas] =>
          destruct (Z.gtb_spec x BurstReplicas) end; lia.
      * right. reflexivity.
  - left. split; reflexivity.
Qed.

Lemma toCreate_at_most_one (namespace : string) (template : PodTemplateSpec)
    (object : PodSet) (controllerRef : OwnerReference) :
  0 <= len (toCreate namespace template object controllerRef) <= 1.
Proof.
  unfold toCreate, len.
  destruct (validateControllerRef controllerRef); cbn; [lia|].
  destruct (GetPodFromTemplate template object controllerRef); cbn; lia.
Qed.

Lemma concat_repeat_nil {L : Type} (n : nat) :
  List.concat (repeat (@nil L) n) = [].
Proof. induction n as [|n IH]; cbn; auto. Qed.

Lemma concat_repeat_single {L : Type} (x : L) (n : nat) :
  List.concat (repeat [x] n) = repeat x n.
Proof. induction n as [|n IH]; cbn; [reflexivity|]. now rewrite IH. Qed.

Lemma scale_up_actions (sched : list nat)
    (filteredPods : PodSlice) (podSet : PodSet) (D : Z) (w : W) :
  SpecReplicas (Spec podSet) = Some D ->
  MinInt32 <= D <= MaxInt32 ->
  len filteredPods < 2 ^ 62 ->
  len filteredPods < D ->
  0 <= BurstReplicas ->
  let n := Z.to_nat (Z.min (D - len filteredPods) BurstReplicas) in
  let namespace := psNamespace podSet in
  let template := Template (Spec podSet) in
  let controllerRef := NewControllerRef podSet in
  let o := manageReplicas sched filteredPods podSet w in
  res o = Ret None /\
  flat_map deleteTarget (events o) = [] /\
  flat_map createdPod (events o)
  = List.concat (repeat (toCreate namespace template podSet controllerRef) n) /\
  (forall pod,
     validateControllerRef controllerRef = None ->
     GetPodFromTemplate template podSet controllerRef = inl pod ->
     flat_map createdPod (events o) = repeat (stamped namespace podSet pod) n) /\
  (forall err,
     validateControllerRef controllerRef = Some err \/
     GetPodFromTemplate template podSet controllerRef = inr err ->
     flat_map createdPod (events o) = []).
Proof.
  intros HD HrD Hlen Hup HB n namespace template controllerRef o.
  destruct (manageReplicas_cases BurstReplicas GetPodFromTemplate sched
              filteredPods podSet D w HD HrD Hlen)
    as [[_ Heq]|[[Hc _]|[Hc _]]]; try lia.
  replace (Z.abs (len filteredPods - D)) with (D - len filteredPods)
    in Heq by lia.
  set (diff := Z.min (D - len filteredPods) BurstReplicas) in *.
  assert (Hdiff : 0 <= diff) by (subst diff; lia).
  destruct (scaleUp_run createdPod sched podSet D diff _ w
              (createPod_emits_created namespace template podSet
                 controllerRef) Hdiff) as [Hres Hcre].
  destruct (scaleUp_run deleteTarget sched podSet D diff _ w
              (createPod_emits_no_delete namespace template podSet
                 controllerRef) Hdiff) as [_ Hdel].
  subst o. rewrite Heq. fold n in Hcre, Hdel. cbn [createdPod deleteTarget app]
    in Hcre, Hdel.
  rewrite concat_repeat_nil in Hdel. apply Permutation_sym in Hdel.
  apply Permutation_nil in Hdel.
  assert (Hexact : flat_map createdPod (events (scaleUp sched podSet D diff w))
                   = List.concat
                       (repeat (toCreate namespace template podSet
                                  controllerRef) n)).
  { revert Hcre. unfold toCreate.
    destruct (validateControllerRef controllerRef).
    - rewrite concat_repeat_nil. intros H. apply Permutation_sym in H.
      apply Permutation_nil in H. exact H.
    - destruct (GetPodFromTemplate template podSet controllerRef).
      + rewrite concat_repeat_single. apply Permutation_repeat.
      + rewrite concat_repeat_nil. intros H. apply Permutation_sym in H.
        apply Permutation_nil in H. exact H. }
  split; [exact Hres|]. split; [exact Hdel|]. split; [exact Hexact|].
  split.
  - intros pod Hv Hg. rewrite Hexact. unfold toCreate. rewrite Hv, Hg.
    apply concat_repeat_single.
  - intros err [Hv|Hg]; rewrite Hexact; unfold toCreate.
    + rewrite Hv. apply concat_repeat_nil.
    + destruct (validateControllerRef controllerRef);
        [|rewrite Hg]; apply concat_repeat_nil.
Qed.

(** X5. On scale-up, with 0 <= BurstReplicas, [manageReplicas] returns nil
    after asking the store to create the same stamped pod
    min(D - A, BurstReplicas) times, under every schedule, when the owner
    reference of the workload is valid and the template gives a pod; when it
    is not, or the template gives none, no create is issued at all, and nil
    is returned all the same. It never issues a delete. *)
Theorem manageReplicas_scale_up_creates (sched : list nat)
    (filteredPods : PodSlice) (podSet : PodSet) (D : Z) (w : W) :
  SpecReplicas (Spec podSet) = Some D ->
  MinInt32 <= D <= MaxInt32 ->
  len filteredPods < 2 ^ 62 ->
  len filteredPods < D ->
  0 <= BurstReplicas ->
  let n := Z.to_nat (Z.min (D - len filteredPods) BurstReplicas) in
  let namespace := psNamespace podSet in
  let template := Template (Spec podSet) in
  let controllerRef := NewControllerRef podSet in
  let o := manageReplicas sched filteredPods podSet w in
  res o = Ret None /\
  flat_map deleteTarget (events o) = [] /\
  flat_map createdPod (events o)
  = List.concat (repeat (toCreate namespace template podSet controllerRef) n) /\
  (forall pod,
     validateControllerRef controllerRef = None ->
     GetPodFromTemplate template podSet controllerRef = inl pod ->
     flat_map createdPod (events o) = repeat (stamped namespace podSet pod) n) /\
  (forall err,
     validateControllerRef controllerRef = Some err \/
     GetPodFromTemplate template podSet controllerRef = inr err ->
     flat_map createdPod (events o) = []).
Proof.
  exact (scale_up_actions sched filteredPods podSet D w).
Qed.

Lemma scale_down_actions (sched : list nat)
    (filteredPods : PodSlice) (podSet : PodSet) (D : Z) (w : W) :
  SpecReplicas (Spec podSet) = Some D ->
  0 <= D <= MaxInt32 ->
  D < len filteredPods < 2 ^ 62 ->
  0 <= BurstReplicas ->
  let diff := Z.min (len filteredPods - D) BurstReplicas in
  let victims := firstn (Z.to_nat diff) filteredPods in
  let o := manageReplicas sched filteredPods podSet w in
  Permutation (flat_map deleteTarget (events o))
              (map (fun pod => (Namespace pod, Name pod)) victims) /\
  count isDelete (events o) = diff /\
  flat_map createdPod (events o) = [] /\
  exists r, res o = Ret r.
Proof.
  intros HD HrD [Hdown Hlen] HB diff victims o.
  assert (HrD' : MinInt32 <= D <= MaxInt32)
    by (unfold MinInt32; change (2 ^ 31) with 2147483648; lia).
  destruct (manageReplicas_cases BurstReplicas GetPodFromTemplate sched
              filteredPods podSet D w HD HrD' Hlen)
    as [[Hc _]|[[_ Heq]|[Hc _]]]; try lia.
  replace (Z.abs (len filteredPods - D)) with (len filteredPods - D)
    in Heq by lia.
  fold diff in Heq.
  destruct (getPodsToDelete_in_range filteredPods diff) as [Hget Hvl];
    [subst diff; lia|].
  fold victims in Hget, Hvl.
  destruct (goAndWait_trace Pod _ deleteTarget
              (fun pod => deleteBody (Some pod))
              (fun pod => [(Namespace pod, Name pod)])
              deleteBody_emits_target sched victims w)
    as (ch & Hch & Hdel).
  destruct (goAndWait_trace Pod _ createdPod
              (fun pod => deleteBody (Some pod)) (fun _ => [])
              deleteBody_emits_no_create sched victims w)
    as (_ & _ & Hcre).
  rewrite <- (map_map Some deleteBody) in Hch, Hdel, Hcre.
  rewrite flat_map_single in Hdel.
  assert (Hnone : flat_map (fun _ : Pod => @nil Pod) victims = []).
  { clear. induction victims as [|v vs IH]; cbn; auto. }
  rewrite Hnone in Hcre. apply Permutation_sym, Permutation_nil in Hcre.
  subst o. rewrite Heq.
  rewrite (scaleDown_run sched filteredPods (map Some victims) D diff w ch
             Hget Hch).
  cbn [res events flat_map deleteTarget createdPod app].
  split; [exact Hdel|]. split; [|split; [exact Hcre|eexists; reflexivity]].
  rewrite count_isDelete. cbn [flat_map deleteTarget app].
  unfold len at 1. rewrite (Permutation_length Hdel), length_map.
  exact Hvl.
Qed.

(** X6. On scale-down, with a desired count that is not negative and
    0 <= BurstReplicas, [manageReplicas] asks the store to delete each of the
    first min(A - D, BurstReplicas) active pods once, by namespace and name,
    and no other pod: the deletes it issues are a permutation of that prefix,
    in the order the schedule of the goroutines decides. It never issues a
    create. *)
Theorem manageReplicas_scale_down_deletes_victims (sched : list nat)
    (filteredPods : PodSlice) (podSet : PodSet) (D : Z) (w : W) :
  SpecReplicas (Spec podSet) = Some D ->
  0 <= D <= MaxInt32 ->
  D < len filteredPods < 2 ^ 62 ->
  0 <= BurstReplicas ->
  let diff := Z.min (len filteredPods - D) BurstReplicas in
  let victims := firstn (Z.to_nat diff) filteredPods in
  let o := manageReplicas sched filteredPods podSet w in
  Permutation (flat_map deleteTarget (events o))
              (map (fun pod => (Namespace pod, Name pod)) victims) /\
  count isDelete (events o) = diff /\
  flat_map createdPod (events o) = [] /\
  exists r, res o = Ret r.
Proof.
  exact (scale_down_actions sched filteredPods podSet D w).
Qed.

(** C2. For an active count [A] (the length of [filteredPods]) and a desired
    count [D], [manageReplicas] works with the amount
    min(|A - D|, BurstReplicas): it takes the create branch with that amount
    iff [A < D], the delete branch with that amount iff [A > D], and does
    nothing at all iff [A = D]. The branch taken is read off the first event
    of the pass, the log line that names the amount, and off what is asked of
    the store: on the create branch [createPod] is run amount times and no
    delete is issued (with a valid owner reference and a template that gives
    a pod, amount creates of the stamped pod are issued); on the delete
    branch, for a desired count that is not negative, amount deletes are
    issued, one for each of the first amount active pods, and no create; for
    [A = D] neither a create nor a delete is issued. *)
Theorem manageReplicas_diff (sched : list nat) (filteredPods : PodSlice)
    (podSet : PodSet) (D : Z) (w : W) :
  SpecReplicas (Spec podSet) = Some D ->
  MinInt32 <= D <= MaxInt32 ->
  len filteredPods < 2 ^ 62 ->
  let A := len filteredPods in
  let amount := Z.min (Z.abs (A - D)) BurstReplicas in
  let o := manageReplicas sched filteredPods podSet w in
  let namespace := psNamespace podSet in
  let template := Template (Spec podSet) in
  let controllerRef := NewControllerRef podSet in
  (A < D <-> hd_error (events o) = Some (EvLogInfo "Too few replicas" D amount)) /\
  (A > D <-> hd_error (events o) = Some (EvLogInfo "Too many replicas" D amount)) /\
  (A = D <-> hd_error (events o) = None) /\
  (A < D -> o = scaleUp sched podSet D amount w) /\
  (A > D -> o = scaleDown sched filteredPods D amount w) /\
  (A = D -> o = ret None w) /\
  (A < D -> 0 <= BurstReplicas ->
   res o = Ret None /\
   flat_map deleteTarget (events o) = [] /\
   flat_map createdPod (events o)
   = List.concat (repeat (toCreate namespace template podSet controllerRef)
                    (Z.to_nat amount)) /\
   (forall pod,
      validateControllerRef controllerRef = None ->
      GetPodFromTemplate template podSet controllerRef = inl pod ->
      flat_map createdPod (events o)
      = repeat (stamped namespace podSet pod) (Z.to_nat amount))) /\
  (A > D -> 0 <= D -> 0 <= BurstReplicas ->
   Permutation (flat_map deleteTarget (events o))
               (map (fun pod => (Namespace pod, Name pod))
                    (firstn (Z.to_nat amount) filteredPods)) /\
   count isDelete (events o) = amount /\
   flat_map createdPod (events o) = []) /\
  (A = D -> count isCreate (events o) = 0 /\ count isDelete (events o) = 0).
Proof.
  intros HD HrD HA A amount o namespace template controllerRef.
  assert (Hkind :
    (A < D <-> hd_error (events o)
               = Some (EvLogInfo "Too few replicas" D amount)) /\
    (A > D <-> hd_error (events o)
               = Some (EvLogInfo "Too many replicas" D amount)) /\
    (A = D <-> hd_error (events o) = None) /\
    (A < D -> o = scaleUp sched podSet D amount w) /\
    (A > D -> o = scaleDown sched filteredPods D amount w) /\
    (A = D -> o = ret None w)).
  { destruct (manageReplicas_cases BurstReplicas GetPodFromTemplate sched
                filteredPods podSet D w HD HrD HA)
      as [[Hc Heq]|[[Hc Heq]|[Hc Heq]]];
      fold A in Hc, Heq; fold amount in Heq; fold o in Heq.
    - assert (Hhd : hd_error (events o)
                    = Some (EvLogInfo "Too few replicas" D amount))
        by (rewrite Heq; reflexivity).
      rewrite Hhd.
      repeat split; intros; try lia; try congruence; try discriminate.
    - assert (Hhd : hd_error (events o)
                    = Some (EvLogInfo "Too many replicas" D amount))
        by (rewrite Heq; reflexivity).
      rewrite Hhd.
      repeat split; intros; try lia; try congruence; try discriminate.
    - assert (Hhd : hd_error (events o) = None)
        by (rewrite Heq; reflexivity).
      rewrite Hhd.
      repeat split; intros; try lia; try congruence; try discriminate. }
  destruct Hkind as (H1 & H2 & H3 & H4 & H5 & H6).
  repeat (split; [assumption|]).
  split; [|split].
  - intros Hup HB.
    destruct (scale_up_actions sched filteredPods podSet D w HD HrD HA Hup HB)
      as (Hres & Hdel & Hcre & Hvalid & _).
    fold A in Hcre, Hvalid. subst amount.
    replace (Z.abs (A - D)) with (D - A) by lia.
    repeat split; assumption.
  - intros Hdown HD0 HB.
    assert (HrD' : 0 <= D <= MaxInt32) by lia.
    destruct (scale_down_actions sched filteredPods podSet D w HD HrD'
                (conj (proj1 (Z.gt_lt_iff A D) Hdown) HA) HB)
      as (Hperm & Hcount & Hcre & _).
    fold A in Hperm, Hcount. subst amount.
    replace (Z.abs (A - D)) with (A - D) by lia.
    repeat split; assumption.
  - intros Heq. fold o. rewrite (H6 Heq). split; reflexivity.
Qed.

(** X7. With 0 <= BurstReplicas, one run of [manageReplicas] never issues
    more than BurstReplicas creates and deletes, whatever the active pods, the
    capacity of their slice, the desired count and the schedule, and never
    both creates and deletes; this holds of the runs that end in a panic
    too, a delete goroutine that meets a nil pointer included. *)
Theorem manageReplicas_burst_ceiling (sched : list nat)
    (filteredPods : PodSlice) (podSet : PodSet) (w : W) :
  0 <= BurstReplicas ->
  let o := manageReplicas sched filteredPods podSet w in
  count isCreate (events o) + count isDelete (events o) <= BurstReplicas /\
  (count isCreate (events o) = 0 \/ count isDelete (events o) = 0).
Proof.
  intros HB o.
  destruct (manageReplicas_branches sched filteredPods podSet w)
    as [[_ Ho]|[(D & diff & _ & Hdiff & [Ho|Ho])|Ho]];
    fold o in Ho; rewrite Ho; clear Ho o.
  - cbn. split; [lia|left; reflexivity].
  - destruct (Z.lt_ge_cases diff 0) as [Hneg|Hpos].
    + rewrite scaleUp_panic by exact Hneg. cbn.
      split; [lia|left; reflexivity].
    + destruct (scaleUp_run createdPod sched podSet D diff _ w
                  (createPod_emits_created (psNamespace podSet)
                     (Template (Spec podSet)) podSet
                     (NewControllerRef podSet)) Hpos) as [_ Hcre].
      destruct (scaleUp_run deleteTarget sched podSet D diff _ w
                  (createPod_emits_no_delete (psNamespace podSet)
                     (Template (Spec podSet)) podSet
                     (NewControllerRef podSet)) Hpos) as [_ Hdel].
      cbn [createdPod deleteTarget app] in Hcre, Hdel.
      pose proof (toCreate_at_most_one (psNamespace podSet)
                    (Template (Spec podSet)) podSet
                    (NewControllerRef podSet)) as Hl.
      assert (Hc : count isCreate (events (scaleUp sched podSet D diff w))
                   = diff * len (toCreate (psNamespace podSet)
                                   (Template (Spec podSet)) podSet
                                   (NewControllerRef podSet))).
      { rewrite count_isCreate. unfold len at 1.
        rewrite (Permutation_length Hcre).
        match goal with |- Z.of_nat (List.length ?x) = _ => fold (len x) end.
        rewrite len_concat_repeat, Z2Nat.id by lia. reflexivity. }
      assert (Hd : count isDelete (events (scaleUp sched podSet D diff w)) = 0).
      { rewrite count_isDelete. unfold len.
        rewrite (Permutation_length Hdel), concat_repeat_nil. reflexivity. }
      rewrite Hc, Hd. split; [nia|right; reflexivity].
  - destruct (getPodsToDelete filteredPods diff) as [victims|] eqn:Hget.
    + destruct (getPodsToDelete_Some filteredPods victims diff Hget)
        as (Hrange & _ & Hvl).
      destruct (scaleDown_events sched filteredPods victims D diff w Hget)
        as [Hev _].
      rewrite Hev.
      change (EvLogInfo "Too many replicas" D diff
              :: events (goAndWait sched (map deleteBody victims) w))
        with ([EvLogInfo "Too many replicas" D diff]
              ++ events (goAndWait sched (map deleteBody victims) w)).
      rewrite !count_app.
      assert (Hbodies : forall k mark,
                (forall ptr, atMost mark k (deleteBody ptr)) ->
                Forall (atMost mark k) (map deleteBody victims)).
      { intros k mark Hk. apply Forall_forall. intros body Hin.
        apply in_map_iff in Hin as (ptr & <- & _). apply Hk. }
      pose proof (goAndWait_capped isDelete 1 ltac:(lia) sched
                    (map deleteBody victims) w
                    (Hbodies 1 isDelete deleteBody_deletes_at_most_once))
        as Hd.
      pose proof (goAndWait_capped isCreate 0 ltac:(lia) sched
                    (map deleteBody victims) w
                    (Hbodies 0 isCreate deleteBody_never_creates)) as Hc.
      pose proof (count_nonneg isCreate
                    (events (goAndWait sched (map deleteBody victims) w)))
        as Hc0.
      pose proof (count_nonneg isDelete
                    (events (goAndWait sched (map deleteBody victims) w)))
        as Hd0.
      assert (Hl : len (map deleteBody victims) = diff)
        by (unfold len in *; rewrite length_map; exact Hvl).
      rewrite Hl in Hd, Hc.
      change (count isCreate [EvLogInfo "Too many replicas" D diff]) with 0.
      change (count isDelete [EvLogInfo "Too many replicas" D diff]) with 0.
      split; [lia|left; lia].
    + rewrite scaleDown_panic by exact Hget. cbn.
      split; [lia|left; reflexivity].
  - cbn. split; [lia|left; reflexivity].
Qed.

(** X10. An error that [manageReplicas] returns is the error of a delete
    of that very run: some delete of the run was refused by the store with an
    error that is not not-found, and the error returned is the plain error
    "failed to delete pod: " followed by the text of that one; it is never a
    not-found error. *)
Theorem manageReplicas_error_is_genuine (sched : list nat)
    (filteredPods : PodSlice) (podSet : PodSet) (w : W) (err : error) :
  let o := manageReplicas sched filteredPods podSet w in
  res o = Ret (Some err) ->
  IsNotFound err = false /\
  exists ns name err0,
    In (EvDelete ns name (Some err0)) (events o) /\
    IsNotFound err0 = false /\
    err = errorString ("failed to delete pod: " ++ ErrorText err0)%string.
Proof.
  intros o Hres.
  assert (Hj : justified deleteFailure (events o) err).
  { destruct (manageReplicas_branches sched filteredPods podSet w)
      as [[_ Ho]|[(D & diff & _ & Hdiff & [Ho|Ho])|Ho]];
      fold o in Ho; rewrite Ho in Hres |- *; clear Ho.
    - discriminate.
    - destruct (Z.lt_ge_cases diff 0) as [Hneg|Hpos].
      + rewrite scaleUp_panic in Hres by exact Hneg. discriminate.
      + rewrite (scaleUp_nil GetPodFromTemplate sched podSet D diff w Hpos)
          in Hres.
        discriminate.
    - destruct (getPodsToDelete filteredPods diff) as [victims|] eqn:Hget.
      + destruct (scaleDown_events sched filteredPods victims D diff w Hget)
          as [_ Hpanic].
        destruct (res (goAndWait sched (map deleteBody victims) w))
          as [ch|msg] eqn:Hch.
        * pose proof (goAndWait_accounted deleteFailure sched
                        (map deleteBody victims) w ch) as Hall.
          cbv zeta in Hall. specialize (Hall ltac:(
            apply Forall_forall; intros body Hin;
            apply in_map_iff in Hin as (ptr & <- & _);
            apply deleteBody_explains) Hch).
          rewrite (scaleDown_run sched filteredPods victims D diff w ch
                     Hget Hch) in Hres |- *.
          cbn [res events] in *.
          destruct ch as [|e ch]; [discriminate|].
          injection Hres as <-. inversion Hall as [|e0 l He _]; subst.
          apply (justified_app_r deleteFailure
                   [EvLogInfo "Too many replicas" D diff]).
          exact He.
        * rewrite (Hpanic msg eq_refl) in Hres. discriminate.
      + rewrite scaleDown_panic in Hres by exact Hget. discriminate.
    - discriminate. }
  destruct Hj as (ev & Hin & ns & name & err0 & -> & Hnf & ->).
  split; [reflexivity|].
  exists ns, name, err0. repeat split; assumption.
Qed.

(** *** Whole passes *)

Variable parsePodSelector : PodSet -> Selector + error.
Variable room : list Pod -> list (option Pod).

Local Abbreviation FilterActivePods := (FilterActivePods room).
Local Abbreviation Reconcile :=
  (Reconcile BurstReplicas parsePodSelector room GetPodFromTemplate).

(** X8. A workload that is not being deleted and whose [Spec.Replicas] is
    nil makes the pass panic on the nil pointer, once the workload is fetched
    and its pods are listed and before anything is written: no create, no
    delete and no status update is issued. *)
Theorem Reconcile_nil_replicas_panics (sched : list nat) (req : Request)
    (w w1 w2 : W) (podSet : PodSet) (labelSelector : Selector)
    (allPods : list Pod) :
  let key := reqNamespacedName req in
  Get key w = (inl podSet, w1) ->
  parsePodSelector podSet = inl labelSelector ->
  List (nnNamespace key) labelSelector w1 = (inl allPods, w2) ->
  DeletionTimestamp podSet = None ->
  SpecReplicas (Spec podSet) = None ->
  Reconcile sched req w
  = {| res := Panic "nil pointer dereference"; world := w2;
       events := [EvLogV "reconciling pod set operator";
                  EvGet key (inl podSet);
                  EvList (nnNamespace key) labelSelector (inl allPods)] |}.
Proof.
  intros key HGet Hparse HList Hdel Hnil.
  unfold Reconcile. fold key. rewrite bind_emit.
  rewrite (bind_r_Get key _ w w1 (inl podSet) HGet). cbv beta iota.
  rewrite Hparse.
  rewrite (bind_r_List _ _ _ w1 w2 (inl allPods) HList). cbv beta iota zeta.
  rewrite Hdel.
  match goal with |- context [bind ?m ?k w2] =>
    rewrite (bind_res_Panic m k w2 "nil pointer dereference")
  end.
  - unfold manageReplicas. rewrite Hnil. reflexivity.
  - unfold manageReplicas. rewrite Hnil. reflexivity.
Qed.

(** X9. A pass that finds the workload in sync writes nothing: when the
    number of active pods is the desired count and the stored status already
    holds that number, the number of ready pods (twice, for ready and
    available) and the generation of the workload, the pass logs its opening
    line, issues its fetch and its list and no other call to the store, gives
    nothing to the recorder, and ends with no requeue. *)
Theorem Reconcile_in_sync_writes_nothing (sched : list nat) (req : Request)
    (w w1 w2 : W) (podSet : PodSet) (labelSelector : Selector)
    (allPods : list Pod) :
  let key := reqNamespacedName req in
  let filteredPods := FilterActivePods allPods in
  Get key w = (inl podSet, w1) ->
  parsePodSelector podSet = inl labelSelector ->
  List (nnNamespace key) labelSelector w1 = (inl allPods, w2) ->
  SpecReplicas (Spec podSet) = Some (len filteredPods) ->
  len filteredPods <= MaxInt32 ->
  Replicas (Status podSet) = len filteredPods ->
  ReadyReplicas (Status podSet) = len (filter IsPodReady filteredPods) ->
  AvailableReplicas (Status podSet) = len (filter IsPodReady filteredPods) ->
  ObservedGeneration (Status podSet) = Generation podSet ->
  let o := Reconcile sched req w in
  events o
  = [EvLogV "reconciling pod set operator";
     EvGet key (inl podSet);
     EvList (nnNamespace key) labelSelector (inl allPods)] /\
  filter isStoreCall (events o)
  = [EvGet key (inl podSet);
     EvList (nnNamespace key) labelSelector (inl allPods)] /\
  flat_map recorded (events o) = [] /\
  res o = Ret ({| Requeue := false |}, None).
Proof.
  intros key filteredPods HGet Hparse HList HD Hlen Hrep Hready Havail Hobs o.
  pose proof (len_nonneg filteredPods) as H0.
  pose proof (len_nonneg (filter IsPodReady filteredPods)) as H1.
  pose proof (len_filter_le IsPodReady filteredPods) as H2.
  assert (Hmax : MaxInt32 = 2147483647) by reflexivity.
  assert (Hmin : MinInt32 = -2147483648) by reflexivity.
  assert (Hm : match DeletionTimestamp podSet with
               | None => manageReplicas sched filteredPods podSet
               | Some _ => ret None
               end w2 = ret None w2).
  { destruct (DeletionTimestamp podSet); [reflexivity|].
    destruct (manageReplicas_cases BurstReplicas GetPodFromTemplate sched
                filteredPods podSet (len filteredPods) w2 HD)
      as [[Hc _]|[[Hc _]|[_ Heq]]]; try lia.
    exact Heq. }
  pose proof (Reconcile_listed BurstReplicas parsePodSelector room
                GetPodFromTemplate sched req w w1 w2 podSet labelSelector
                allPods None) as H.
  cbv zeta in H. fold key filteredPods in H. rewrite Hm in H.
  destruct (H HGet Hparse HList eq_refl)
    as (newStatus & w3 & cm & Hcalc & Hcm & Ho).
  cbn [world events ret app] in Hcalc, Ho.
  destruct (countReplicas_counts filteredPods 0 0 w2) as (w' & Hc); try lia.
  unfold calculateStatus, bind in Hcalc. rewrite Hc in Hcalc.
  cbn [res world events app fst snd ret] in Hcalc.
  injection Hcalc as Hns Hw3.
  assert (Hsame : sameStatus (DeepCopy podSet) newStatus = true).
  { apply sameStatus_true. subst newStatus. unfold DeepCopy.
    cbn [Replicas ReadyReplicas AvailableReplicas ObservedGeneration].
    change (filter IsPodActive allPods) with (items filteredPods).
    rewrite !wrap32_small by lia. rewrite Hrep, Hready, Havail, Hobs.
    repeat split. }
  rewrite (updatePodSetStatus_skip (DeepCopy podSet) newStatus w3 Hsame)
    in Hcm, Ho.
  cbn [res world events ret] in Hcm, Ho. injection Hcm as <-.
  subst o. rewrite Ho.
  cbn [res events failure filter isStoreCall flat_map recorded app].
  repeat split.
Qed.

End Batches.

(** ** Further runs on the cluster in memory *)

(** A workload without UID: its owner reference is refused before any call
    to the store. *)
Lemma createPod_rejects_without_store_call_witness :
  let podSet := {| psNamespace := "default"; psName := "web"; psUID := "";
                   Generation := 1; DeletionTimestamp := None;
                   Spec := Spec (Fake.podSet 2 None 1 Fake.noStatus);
                   Status := Fake.noStatus |} in
  let err := errorString "controllerRef has empty UID" in
  let w := Fake.cluster [podSet] [] 5 [] in
  (validateControllerRef (NewControllerRef podSet) = Some err \/
   (validateControllerRef (NewControllerRef podSet) = None /\
    Fake.GetPodFromTemplate (Template (Spec podSet)) podSet
      (NewControllerRef podSet) = inr err)) /\
  createPod Fake.GetPodFromTemplate "default" (Template (Spec podSet)) podSet
    (NewControllerRef podSet) w
  = {| res := Ret (Some err); world := w; events := [] |}.
Proof.
  intros podSet err w.
  assert (H : validateControllerRef (NewControllerRef podSet) = Some err \/
              (validateControllerRef (NewControllerRef podSet) = None /\
               Fake.GetPodFromTemplate (Template (Spec podSet)) podSet
                 (NewControllerRef podSet) = inr err))
    by (left; reflexivity).
  split; [exact H|].
  exact (@createPod_rejects_without_store_call Fake.Cluster Fake.client
           Fake.GetPodFromTemplate "default" (Template (Spec podSet)) podSet
           (NewControllerRef podSet) err w H).
Defined.

(** A template without labels: the pod sent takes the match labels of the
    selector, and the cluster, out of quota, refuses it. *)
Lemma createPod_sends_stamped_pod_witness :
  let podSet := Fake.podSet 2 None 1 Fake.noStatus in
  let template := {| TemplateLabels := [] |} in
  let controllerRef := NewControllerRef podSet in
  let pod := {| Namespace := ""; Name := "web-pod"; PodLabels := [];
                OwnerReferences := [controllerRef]; Phase := PodPending;
                PodDeletionTimestamp := None; ReadySince := None |} in
  let w := Fake.cluster [podSet] [] 0 [] in
  let o := createPod Fake.GetPodFromTemplate "default" template podSet
             controllerRef w in
  validateControllerRef controllerRef = None /\
  Fake.GetPodFromTemplate template podSet controllerRef = inl pod /\
  filter isStoreCall (events o)
  = [EvCreate (stamped "default" podSet pod) (Some Fake.forbidden)] /\
  PodLabels (stamped "default" podSet pod) = Fake.web /\
  res o = Ret (Some Fake.forbidden).
Proof.
  intros podSet template controllerRef pod w o.
  assert (H1 : validateControllerRef controllerRef = None) by reflexivity.
  assert (H2 : Fake.GetPodFromTemplate template podSet controllerRef = inl pod)
    by reflexivity.
  split; [exact H1|]. split; [exact H2|].
  destruct (@createPod_sends_stamped_pod Fake.Cluster Fake.client
              Fake.GetPodFromTemplate "default" template podSet controllerRef
              pod w H1 H2)
    as (Hcall & _ & Hres & _ & _ & _ & _ & _ & Hlabels & _).
  split; [exact Hcall|]. split; [apply Hlabels; reflexivity|exact Hres].
Defined.

(** Three runs of a [createPod] against a quota of one: three creates are
    issued, whatever the schedule makes of them. *)
Lemma createPodsInBatch_runs_all_witness :
  let podSet := Fake.podSet 3 None 1 Fake.noStatus in
  let fn := createPod Fake.GetPodFromTemplate "default"
              (Template (Spec podSet)) podSet (NewControllerRef podSet) in
  let l := toCreate Fake.GetPodFromTemplate "default" (Template (Spec podSet))
             podSet (NewControllerRef podSet) in
  let o := createPodsInBatch [2%nat; 0%nat; 2%nat] 3 1 fn
             (Fake.cluster [podSet] [] 1 []) in
  emits createdPod fn l /\
  0 <= 3 /\
  len (flat_map createdPod (events o)) = 3 /\
  res o = Ret (0, None).
Proof.
  intros podSet fn l o.
  assert (H1 : emits createdPod fn l)
    by (apply (@createPod_emits_created Fake.Cluster Fake.client)).
  assert (H2 : 0 <= 3) by discriminate.
  split; [exact H1|]. split; [exact H2|].
  destruct (@createPodsInBatch_runs_all Fake.Cluster Pod createdPod
              [2%nat; 0%nat; 2%nat] 3 1 fn l (Fake.cluster [podSet] [] 1 [])
              H1 H2) as (Hres & _ & Hlen).
  split; [exact Hlen|exact Hres].
Defined.

(** Desired 5, active 2, burst ceiling 10: three creates of the stamped
    pod. *)
Lemma manageReplicas_scale_up_creates_witness :
  let podSet := Fake.podSet 5 None 1 Fake.noStatus in
  let filteredPods :=
    Fake.slice [Fake.pod "a" (Some 5); Fake.pod "b" (Some 6)] in
  let o := manageReplicas 10 Fake.GetPodFromTemplate [] filteredPods podSet
             (Fake.cluster [podSet] filteredPods 5 []) in
  SpecReplicas (Spec podSet) = Some 5 /\
  MinInt32 <= 5 <= MaxInt32 /\
  len filteredPods < 2 ^ 62 /\
  len filteredPods < 5 /\
  0 <= 10 /\
  res o = Ret None /\
  len (flat_map createdPod (events o)) = 3 /\
  flat_map deleteTarget (events o) = [].
Proof.
  intros podSet filteredPods o.
  assert (H1 : SpecReplicas (Spec podSet) = Some 5) by reflexivity.
  assert (H2 : MinInt32 <= 5 <= MaxInt32) by (vm_compute; split; discriminate).
  assert (H3 : len filteredPods < 2 ^ 62) by (vm_compute; reflexivity).
  assert (H4 : len filteredPods < 5) by (vm_compute; reflexivity).
  assert (H5 : 0 <= 10) by discriminate.
  split; [exact H1|]. split; [exact H2|]. split; [exact H3|].
  split; [exact H4|]. split; [exact H5|].
  destruct (@manageReplicas_scale_up_creates Fake.Cluster Fake.client 10
              Fake.GetPodFromTemplate [] filteredPods podSet 5
              (Fake.cluster [podSet] filteredPods 5 []) H1 H2 H3 H4 H5)
    as (Hres & Hdel & Hcre & _).
  split; [exact Hres|]. split; [|exact Hdel].
  fold o in Hcre. rewrite Hcre. reflexivity.
Defined.

(** Desired 3, active 7, burst ceiling 4: the first four pods are deleted,
    here in the order d, b, a, c. *)
Lemma manageReplicas_scale_down_deletes_victims_witness :
  let filteredPods :=
    Fake.slice
      [Fake.pod "a" None; Fake.pod "b" None; Fake.pod "c" None;
       Fake.pod "d" None; Fake.pod "e" None; Fake.pod "f" None;
       Fake.pod "g" None] in
  let podSet := Fake.podSet 3 None 1 Fake.noStatus in
  let o := manageReplicas 4 Fake.GetPodFromTemplate [3%nat; 1%nat]
             filteredPods podSet (Fake.cluster [podSet] filteredPods 0 []) in
  SpecReplicas (Spec podSet) = Some 3 /\
  0 <= 3 <= MaxInt32 /\
  3 < len filteredPods < 2 ^ 62 /\
  0 <= 4 /\
  flat_map deleteTarget (events o)
  = [("default", "d"); ("default", "b"); ("default", "a"); ("default", "c")] /\
  count isDelete (events o) = 4 /\
  flat_map createdPod (events o) = [].
Proof.
  intros filteredPods podSet o.
  assert (H1 : SpecReplicas (Spec podSet) = Some 3) by reflexivity.
  assert (H2 : 0 <= 3 <= MaxInt32) by (vm_compute; split; discriminate).
  assert (H3 : 3 < len filteredPods < 2 ^ 62)
    by (vm_compute; split; reflexivity).
  assert (H4 : 0 <= 4) by discriminate.
  split; [exact H1|]. split; [exact H2|]. split; [exact H3|].
  split; [exact H4|].
  destruct (@manageReplicas_scale_down_deletes_victims Fake.Cluster
              Fake.client 4 Fake.GetPodFromTemplate [3%nat; 1%nat]
              filteredPods podSet 3
              (Fake.cluster [podSet] filteredPods 0 []) H1 H2 H3 H4)
    as (_ & Hcount & Hcre & _).
  split; [reflexivity|]. split; [exact Hcount|exact Hcre].
Defined.

(** Desired 40, active 0, burst ceiling 4: four creates and no more. *)
Lemma manageReplicas_burst_ceiling_witness :
  let podSet := Fake.podSet 40 None 1 Fake.noStatus in
  let o := manageReplicas 4 Fake.GetPodFromTemplate [] (Fake.slice []) podSet
             (Fake.cluster [podSet] [] 100 []) in
  0 <= 4 /\
  count isCreate (events o) = 4 /\
  count isCreate (events o) + count isDelete (events o) <= 4.
Proof.
  intros podSet o.
  assert (H1 : 0 <= 4) by discriminate.
  split; [exact H1|]. split; [reflexivity|].
  destruct (@manageReplicas_burst_ceiling Fake.Cluster Fake.client 4
              Fake.GetPodFromTemplate [] (Fake.slice []) podSet
              (Fake.cluster [podSet] [] 100 []) H1) as [Hle _].
  exact Hle.
Defined.

(** Desired 0, two active pods, the first of which the cluster refuses to
    delete: the error returned is the one made of that refusal. *)
Lemma manageReplicas_error_is_genuine_witness :
  let filteredPods := Fake.slice [Fake.pod "a" None; Fake.pod "b" None] in
  let podSet := Fake.podSet 0 None 1 Fake.noStatus in
  let err := errorString "failed to delete pod: internal error" in
  let o := manageReplicas 500 Fake.GetPodFromTemplate [1%nat] filteredPods
             podSet (Fake.cluster [podSet] filteredPods 0 ["a"]) in
  res o = Ret (Some err) /\
  IsNotFound err = false /\
  exists ns name err0,
    In (EvDelete ns name (Some err0)) (events o) /\
    IsNotFound err0 = false /\
    err = errorString ("failed to delete pod: " ++ ErrorText err0)%string.
Proof.
  intros filteredPods podSet err o.
  assert (H1 : res o = Ret (Some err)) by reflexivity.
  split; [exact H1|].
  exact (@manageReplicas_error_is_genuine Fake.Cluster Fake.client 500
           Fake.GetPodFromTemplate [1%nat] filteredPods podSet
           (Fake.cluster [podSet] filteredPods 0 ["a"]) err H1).
Defined.

(** A workload without [Spec.Replicas] that is not being deleted. *)
Lemma Reconcile_nil_replicas_panics_witness :
  let podSet := {| psNamespace := "default"; psName := "web";
                   psUID := "uid-1"; Generation := 1;
                   DeletionTimestamp := None;
                   Spec := {| SpecReplicas := None;
                              SpecSelector := {| MatchLabels := Fake.web |};
                              Template := {| TemplateLabels := Fake.web |} |};
                   Status := Fake.noStatus |} in
  let allPods := [Fake.pod "a" (Some 5)] in
  let w := Fake.cluster [podSet] allPods 5 [] in
  let key := reqNamespacedName Fake.request in
  Get key w = (inl podSet, w) /\
  Fake.parsePodSelector podSet = inl Fake.web /\
  List (nnNamespace key) Fake.web w = (inl allPods, w) /\
  DeletionTimestamp podSet = None /\
  SpecReplicas (Spec podSet) = None /\
  res (Reconcile 500 Fake.parsePodSelector Fake.room Fake.GetPodFromTemplate []
         Fake.request w)
  = Panic "nil pointer dereference".
Proof.
  intros podSet allPods w key.
  assert (H1 : Get key w = (inl podSet, w)) by reflexivity.
  assert (H2 : Fake.parsePodSelector podSet = inl Fake.web) by reflexivity.
  assert (H3 : List (nnNamespace key) Fake.web w = (inl allPods, w))
    by reflexivity.
  assert (H4 : DeletionTimestamp podSet = None) by reflexivity.
  assert (H5 : SpecReplicas (Spec podSet) = None) by reflexivity.
  split; [exact H1|]. split; [exact H2|]. split; [exact H3|].
  split; [exact H4|]. split; [exact H5|].
  rewrite (@Reconcile_nil_replicas_panics Fake.Cluster Fake.client 500
             Fake.GetPodFromTemplate Fake.parsePodSelector Fake.room [] Fake.request
             w w w podSet Fake.web allPods H1 H2 H3 H4 H5).
  reflexivity.
Defined.

(** Desired 2, two ready pods, and a stored status that says so for
    generation 1: the second pass in a row writes nothing. *)
Lemma Reconcile_in_sync_writes_nothing_witness :
  let podSet := Fake.podSet 2 None 1
                  {| Replicas := 2; ReadyReplicas := 2;
                     AvailableReplicas := 2; ObservedGeneration := 1 |} in
  let allPods := [Fake.pod "a" (Some 5); Fake.pod "b" (Some 6)] in
  let filteredPods := FilterActivePods Fake.room allPods in
  let w := Fake.cluster [podSet] allPods 5 [] in
  let key := reqNamespacedName Fake.request in
  let o := Reconcile 500 Fake.parsePodSelector Fake.room Fake.GetPodFromTemplate []
             Fake.request w in
  Get key w = (inl podSet, w) /\
  Fake.parsePodSelector podSet = inl Fake.web /\
  List (nnNamespace key) Fake.web w = (inl allPods, w) /\
  SpecReplicas (Spec podSet) = Some (len filteredPods) /\
  len filteredPods <= MaxInt32 /\
  Replicas (Status podSet) = len filteredPods /\
  ReadyReplicas (Status podSet) = len (filter IsPodReady filteredPods) /\
  AvailableReplicas (Status podSet) = len (filter IsPodReady filteredPods) /\
  ObservedGeneration (Status podSet) = Generation podSet /\
  events o = [EvLogV "reconciling pod set operator";
              EvGet key (inl podSet);
              EvList (nnNamespace key) Fake.web (inl allPods)] /\
  res o = Ret ({| Requeue := false |}, None).
Proof.
  intros podSet allPods filteredPods w key o.
  assert (H1 : Get key w = (inl podSet, w)) by reflexivity.
  assert (H2 : Fake.parsePodSelector podSet = inl Fake.web) by reflexivity.
  assert (H3 : List (nnNamespace key) Fake.web w = (inl allPods, w))
    by reflexivity.
  assert (H4 : SpecReplicas (Spec podSet) = Some (len filteredPods))
    by reflexivity.
  assert (H5 : len filteredPods <= MaxInt32) by (vm_compute; discriminate).
  assert (H6 : Replicas (Status podSet) = len filteredPods) by reflexivity.
  assert (H7 : ReadyReplicas (Status podSet)
               = len (filter IsPodReady filteredPods)) by reflexivity.
  assert (H8 : AvailableReplicas (Status podSet)
               = len (filter IsPodReady filteredPods)) by reflexivity.
  assert (H9 : ObservedGeneration (Status podSet) = Generation podSet)
    by reflexivity.
  repeat (split; [assumption|]).
  destruct (@Reconcile_in_sync_writes_nothing Fake.Cluster Fake.client 500
              Fake.GetPodFromTemplate Fake.parsePodSelector Fake.room [] Fake.request
              w w w podSet Fake.web allPods H1 H2 H3 H4 H5 H6 H7 H8 H9)
    as (Hev & _ & _ & Hres).
  split; [exact Hev|exact Hres].
Defined.

(** Desired 5, active 2, burst ceiling 10: the pass takes the create branch
    with amount 3 and asks for the stamped pod three times. *)
Lemma manageReplicas_diff_witness :
  let podSet := Fake.podSet 5 None 1 Fake.noStatus in
  let filteredPods :=
    Fake.slice [Fake.pod "a" (Some 5); Fake.pod "b" (Some 6)] in
  let pod := {| Namespace := ""; Name := "web-pod"; PodLabels := Fake.web;
                OwnerReferences := [NewControllerRef podSet];
                Phase := PodPending; PodDeletionTimestamp := None;
                ReadySince := None |} in
  let o := manageReplicas 10 Fake.GetPodFromTemplate [] filteredPods podSet
             (Fake.cluster [podSet] filteredPods 5 []) in
  SpecReplicas (Spec podSet) = Some 5 /\
  MinInt32 <= 5 <= MaxInt32 /\
  len filteredPods < 2 ^ 62 /\
  hd_error (events o) = Some (EvLogInfo "Too few replicas" 5 3) /\
  flat_map createdPod (events o) = repeat (stamped "default" podSet pod) 3 /\
  flat_map deleteTarget (events o) = [].
Proof.
  intros podSet filteredPods pod o.
  assert (H1 : SpecReplicas (Spec podSet) = Some 5) by reflexivity.
  assert (H2 : MinInt32 <= 5 <= MaxInt32) by (vm_compute; split; discriminate).
  assert (H3 : len filteredPods < 2 ^ 62) by (vm_compute; reflexivity).
  split; [exact H1|]. split; [exact H2|]. split; [exact H3|].
  destruct (@manageReplicas_diff Fake.Cluster Fake.client 10
              Fake.GetPodFromTemplate [] filteredPods podSet 5
              (Fake.cluster [podSet] filteredPods 5 []) H1 H2 H3)
    as (Hkind & _ & _ & _ & _ & _ & Hcreate & _).
  assert (Hup : len filteredPods < 5) by (vm_compute; reflexivity).
  destruct (Hcreate Hup ltac:(discriminate)) as (_ & Hdel & _ & Hvalid).
  split; [apply Hkind; exact Hup|].
  split; [exact (Hvalid pod eq_refl eq_refl)|exact Hdel].
Defined.

(** Three active pods in a slice of capacity 4 and [Replicas] = -1: the
    delete count 4 is within the capacity, so the slice expression succeeds
    and takes the nil pointer behind the elements along; the three pods are
    asked to be deleted and the fourth goroutine panics. *)
Example scale_down_into_spare_capacity :
  let filteredPods :=
    {| items := [Fake.pod "a" None; Fake.pod "b" None; Fake.pod "c" None];
       spare := [None] |} in
  let podSet := Fake.podSet (-1) None 1 Fake.noStatus in
  let o := manageReplicas 500 Fake.GetPodFromTemplate [] filteredPods podSet
             (Fake.cluster [podSet] filteredPods 0 []) in
  getPodsToDelete filteredPods 4
  = Some [Some (Fake.pod "a" None); Some (Fake.pod "b" None);
          Some (Fake.pod "c" None); None] /\
  flat_map deleteTarget (events o)
  = [("default", "a"); ("default", "b"); ("default", "c")] /\
  res o = Panic "nil pointer dereference".
Proof. cbv zeta. repeat split. Qed.
